(** * bimap: a bidirectional map (package [bimap], file bimap.go)

    The Go type [BiMap[T, U]] keeps two hash maps, [front : map[T]U] and
    [back : map[U]T], behind one [sync.RWMutex].  Every method takes the
    lock for its whole body, so a method body is one atomic step; the
    development below verifies the sequential behaviour of those steps.

    Two layers are given.
    - The value layer: the receiver [*BiMap] is threaded explicitly, a
      method is a function from the state before the call to its results
      and the state after it.  Go maps are [gmap]s.
    - The store layer ([Module Store]): Go maps are reference objects, so a
      map value is an address into a store of map objects.  This layer is
      needed to speak about the map returned by [Front], which the caller
      can mutate.  It is connected to the value layer by simulation
      lemmas.

    Key types are [comparable] in Go; here they are [Countable], which
    covers strings, integers and structs of those.  Equality of keys is
    therefore reflexive: floating-point keys holding NaN, which a Go map
    never finds again, are outside the model.  A state is a [BiMap] whose
    two maps exist, as [New] makes it; the zero struct, whose maps are nil,
    is not considered. *)

From stdpp Require Import gmap strings list fin_maps.
From Stdlib Require Import ZArith.

(** ** Go preliminaries *)

(** The zero value of a Go type ([var v U]). *)
Class GoZero (A : Type) := go_zero : A.

#[export] Instance string_GoZero : GoZero string := "".
#[export] Instance nat_GoZero : GoZero nat := 0.
#[export] Instance Z_GoZero : GoZero Z := 0%Z.

(** The text the verb [%v] of package [fmt] prints for a value. *)
Class GoFmt (A : Type) := fmt_v : A → string.

#[export] Instance string_GoFmt : GoFmt string := λ s, s.

(** [strings.Join(elems, sep)]: the first element, then each further
    element preceded by the separator; the empty string for no elements. *)
Definition Join (elems : list string) (sep : string) : string :=
  match elems with
  | [] => ""
  | e :: rest => foldl (λ b s, b +:+ sep +:+ s) e rest
  end.

(** The two-result map index expression [v, ok := m[key]]: the stored value
    and [true], or the zero value of the element type and [false]. *)
Definition index `{Countable K} `{GoZero V} (m : gmap K V) (key : K) : V * bool :=
  match m !! key with
  | Some v => (v, true)
  | None => (go_zero, false)
  end.

(** A [for k, v := range m] loop visits every entry of [m] exactly once, in
    an order the language leaves unspecified. *)
Definition range_order `{Countable K} {V} (m : gmap K V) (order : list (K * V)) : Prop :=
  order ≡ₚ map_to_list m.

(** [var ErrKeyValExists = errors.New("key or value exists")]; a Go [error]
    result is [None] for [nil]. *)
Inductive error := ErrKeyValExists.

Definition error_message (e : error) : string :=
  match e with ErrKeyValExists => "key or value exists" end.

(** ** The value layer *)

Section bimap.
Context `{Countable T} `{Countable U} `{GoZero T} `{GoZero U}.
Context `{GoFmt T} `{GoFmt U}.

(** [type BiMap[T, U comparable] struct { rwLock; front map[T]U; back map[U]T }] *)
Record BiMap := mkBiMap {
  front : gmap T U;
  back : gmap U T;
}.

(** [type initialOption[T, U comparable] map[T]U], the only implementation
    of the interface [option]. *)
Inductive option_ :=
| initialOption (io : gmap T U).

(** One pass of the body of the loop in [initialOption.apply]. *)
Definition apply_step (m : BiMap) (kv : T * U) : BiMap :=
  {| front := <[kv.1 := kv.2]> (front m);
     back := <[kv.2 := kv.1]> (back m) |}.

(** [initialOption.apply], for a given visiting order of [io]. *)
Definition apply_in (order : list (T * U)) (m : BiMap) : BiMap :=
  foldl apply_step m order.

Definition apply (o : option_) (m : BiMap) : BiMap :=
  match o with
  | initialOption io => apply_in (map_to_list io) m
  end.

Definition WithInitialMap (m : gmap T U) : option_ := initialOption m.

(** [New]: the variadic parameter is unnamed and the body never reads
    it. *)
Definition New (_ : list option_) : BiMap :=
  {| front := ∅; back := ∅ |}.

Definition GetFront (m : BiMap) (key : T) : (U * bool) * BiMap :=
  let '(v, ok) := index (front m) key in
  ((v, ok), m).

Definition GetBack (m : BiMap) (key : U) : (T * bool) * BiMap :=
  let '(v, ok) := index (back m) key in
  ((v, ok), m).

Definition SetFront (m : BiMap) (key : T) (val : U) : option error * BiMap :=
  let ok := (index (front m) key).2 in
  let ok := if negb ok then (index (back m) val).2 else ok in
  if ok then (Some ErrKeyValExists, m)
  else (None, {| front := <[key := val]> (front m);
                 back := <[val := key]> (back m) |}).

Definition SetBack (m : BiMap) (key : U) (val : T) : option error * BiMap :=
  let ok := (index (back m) key).2 in
  let ok := if negb ok then (index (front m) val).2 else ok in
  if ok then (Some ErrKeyValExists, m)
  else (None, {| front := <[val := key]> (front m);
                 back := <[key := val]> (back m) |}).

Definition DeleteFront (m : BiMap) (key : T) : BiMap :=
  let '(v, ok) := index (front m) key in
  if negb ok then m
  else {| front := delete key (front m); back := delete v (back m) |}.

Definition DeleteBack (m : BiMap) (key : U) : BiMap :=
  let '(v, ok) := index (back m) key in
  if negb ok then m
  else {| front := delete v (front m); back := delete key (back m) |}.

(** [Len] returns [len(m.front)], a Go [int]; the number of entries of a
    map held in memory is far below the range of [int]. *)
Definition Len (m : BiMap) : Z * BiMap :=
  (Z.of_nat (size (front m)), m).

(** [Front]: a fresh map filled by a loop over [m.front]; the argument of
    [make] after the type is a capacity hint. *)
Definition Front_in (order : list (T * U)) (m : BiMap) : gmap T U * BiMap :=
  let nm : gmap T U := ∅ in
  let nm := foldl (λ nm kv, <[kv.1 := kv.2]> nm) nm order in
  (nm, m).

Definition Front (m : BiMap) : gmap T U * BiMap :=
  Front_in (map_to_list (front m)) m.

Definition Back_in (order : list (U * T)) (m : BiMap) : gmap U T * BiMap :=
  let nm : gmap U T := ∅ in
  let nm := foldl (λ nm kv, <[kv.1 := kv.2]> nm) nm order in
  (nm, m).

Definition Back (m : BiMap) : gmap U T * BiMap :=
  Back_in (map_to_list (back m)) m.

(** [fmt.Sprintf("%v:%v", f, b)] *)
Definition Sprintf_pair (f : T) (b : U) : string :=
  fmt_v f +:+ ":" +:+ fmt_v b.

(** [String], for a given visiting order of [m.front]. *)
Definition String_in (order : list (T * U)) (m : BiMap) : string * BiMap :=
  let pairs : list string := [] in
  let pairs := foldl (λ pairs fb, pairs ++ [Sprintf_pair fb.1 fb.2]) pairs order in
  ("map[" +:+ Join pairs " " +:+ "]", m).

Definition String (m : BiMap) : string * BiMap :=
  String_in (map_to_list (front m)) m.

(** *** Sequences of calls

    A call of a method on the map, with its arguments.  A read that
    ranges over a map carries the order in which the runtime visited the
    entries. *)
Inductive op :=
| OpGetFront (key : T)
| OpGetBack (key : U)
| OpSetFront (key : T) (val : U)
| OpSetBack (key : U) (val : T)
| OpDeleteFront (key : T)
| OpDeleteBack (key : U)
| OpFront (order : list (T * U))
| OpBack (order : list (U * T))
| OpLen
| OpString (order : list (T * U)).

(** The state after a call. *)
Definition exec (m : BiMap) (o : op) : BiMap :=
  match o with
  | OpGetFront key => (GetFront m key).2
  | OpGetBack key => (GetBack m key).2
  | OpSetFront key val => (SetFront m key val).2
  | OpSetBack key val => (SetBack m key val).2
  | OpDeleteFront key => DeleteFront m key
  | OpDeleteBack key => DeleteBack m key
  | OpFront order => (Front_in order m).2
  | OpBack order => (Back_in order m).2
  | OpLen => (Len m).2
  | OpString order => (String_in order m).2
  end.

Definition run (ops : list op) (m : BiMap) : BiMap := foldl exec m ops.

(** The two containers are inverses of one another. *)
Definition consistent (m : BiMap) : Prop :=
  ∀ f b, front m !! f = Some b ↔ back m !! b = Some f.

End bimap.

Arguments BiMap T {_ _} U {_ _}.
Arguments option_ T {_ _} U.
Arguments op T U : clear implicits.

(** ** The store layer

    A Go map value is a reference to a map object.  The store holds the
    map objects of type [map[T]U] and those of type [map[U]T]; [make]
    allocates a new object at an address not in use. *)

Module Store.

Abbreviation loc := positive (only parsing).

(** The struct holds the references of its two maps. *)
Record BiMap := mkBiMap {
  front : loc;
  back : loc;
}.

(** [initialOption] is a map type: the option is a reference to the
    caller's map. *)
Inductive option_ :=
| initialOption (io : loc).

Section store.
Context `{Countable T} `{Countable U} `{GoZero T} `{GoZero U}.

Record store := mkStore {
  maps_TU : gmap loc (gmap T U);
  maps_UT : gmap loc (gmap U T);
}.

(** The entries of the map object at an address (none where no object
    is allocated, as for a nil map). *)
Definition load_TU (s : store) (a : loc) : gmap T U :=
  default ∅ (maps_TU s !! a).

Definition load_UT (s : store) (a : loc) : gmap U T :=
  default ∅ (maps_UT s !! a).

(** [make(map[T]U)] *)
Definition make_TU (s : store) : loc * store :=
  let a := fresh (dom (maps_TU s)) in
  (a, {| maps_TU := <[a := ∅]> (maps_TU s); maps_UT := maps_UT s |}).

(** [make(map[U]T)] *)
Definition make_UT (s : store) : loc * store :=
  let a := fresh (dom (maps_UT s)) in
  (a, {| maps_TU := maps_TU s; maps_UT := <[a := ∅]> (maps_UT s) |}).

(** [a[k] = v] on an allocated map *)
Definition assign_TU (a : loc) (k : T) (v : U) (s : store) : store :=
  {| maps_TU := alter (insert k v) a (maps_TU s); maps_UT := maps_UT s |}.

Definition assign_UT (a : loc) (k : U) (v : T) (s : store) : store :=
  {| maps_TU := maps_TU s; maps_UT := alter (insert k v) a (maps_UT s) |}.

(** [delete(a, k)] *)
Definition delete_TU (a : loc) (k : T) (s : store) : store :=
  {| maps_TU := alter (delete k) a (maps_TU s); maps_UT := maps_UT s |}.

Definition delete_UT (a : loc) (k : U) (s : store) : store :=
  {| maps_TU := maps_TU s; maps_UT := alter (delete k) a (maps_UT s) |}.

Definition New (_ : list option_) (s : store) : BiMap * store :=
  let '(f, s) := make_TU s in
  let '(b, s) := make_UT s in
  ({| front := f; back := b |}, s).

Definition GetFront (m : BiMap) (key : T) (s : store) : (U * bool) * store :=
  let '(v, ok) := index (load_TU s (front m)) key in
  ((v, ok), s).

Definition GetBack (m : BiMap) (key : U) (s : store) : (T * bool) * store :=
  let '(v, ok) := index (load_UT s (back m)) key in
  ((v, ok), s).

Definition SetFront (m : BiMap) (key : T) (val : U) (s : store)
  : option error * store :=
  let ok := (index (load_TU s (front m)) key).2 in
  let ok := if negb ok then (index (load_UT s (back m)) val).2 else ok in
  if ok then (Some ErrKeyValExists, s)
  else
    let s := assign_TU (front m) key val s in
    let s := assign_UT (back m) val key s in
    (None, s).

Definition SetBack (m : BiMap) (key : U) (val : T) (s : store)
  : option error * store :=
  let ok := (index (load_UT s (back m)) key).2 in
  let ok := if negb ok then (index (load_TU s (front m)) val).2 else ok in
  if ok then (Some ErrKeyValExists, s)
  else
    let s := assign_UT (back m) key val s in
    let s := assign_TU (front m) val key s in
    (None, s).

Definition DeleteFront (m : BiMap) (key : T) (s : store) : store :=
  let '(v, ok) := index (load_TU s (front m)) key in
  if negb ok then s
  else
    let s := delete_TU (front m) key s in
    delete_UT (back m) v s.

Definition DeleteBack (m : BiMap) (key : U) (s : store) : store :=
  let '(v, ok) := index (load_UT s (back m)) key in
  if negb ok then s
  else
    let s := delete_UT (back m) key s in
    delete_TU (front m) v s.

(** [Front]: [nm := make(...)], then [nm[k] = v] for each entry of
    [m.front] in the visiting order; the reference [nm] is returned. *)
Definition Front_in (order : list (T * U)) (m : BiMap) (s : store)
  : loc * store :=
  let '(nm, s) := make_TU s in
  let s := foldl (λ s kv, assign_TU nm kv.1 kv.2 s) s order in
  (nm, s).

Definition Front (m : BiMap) (s : store) : loc * store :=
  Front_in (map_to_list (load_TU s (front m))) m s.

Definition Back_in (order : list (U * T)) (m : BiMap) (s : store)
  : loc * store :=
  let '(nm, s) := make_UT s in
  let s := foldl (λ s kv, assign_UT nm kv.1 kv.2 s) s order in
  (nm, s).

Definition Back (m : BiMap) (s : store) : loc * store :=
  Back_in (map_to_list (load_UT s (back m))) m s.

Definition Len (m : BiMap) (s : store) : Z * store :=
  (Z.of_nat (size (load_TU s (front m))), s).

(** What the holder of a [map[T]U] reference can do to the object. *)
Inductive mutation :=
| Assign (k : T) (v : U)
| Delete (k : T).

Definition mutate (a : loc) (s : store) (c : mutation) : store :=
  match c with
  | Assign k v => assign_TU a k v s
  | Delete k => delete_TU a k s
  end.

(** Calls on the map [m]; a snapshot call carries the visiting order,
    which has to be an order of the map it ranges over. *)
Inductive op :=
| OpGetFront (key : T)
| OpGetBack (key : U)
| OpSetFront (key : T) (val : U)
| OpSetBack (key : U) (val : T)
| OpDeleteFront (key : T)
| OpDeleteBack (key : U)
| OpFront (order : list (T * U))
| OpBack (order : list (U * T))
| OpLen.

Definition exec (m : BiMap) (s : store) (o : op) : store :=
  match o with
  | OpGetFront key => (GetFront m key s).2
  | OpGetBack key => (GetBack m key s).2
  | OpSetFront key val => (SetFront m key val s).2
  | OpSetBack key val => (SetBack m key val s).2
  | OpDeleteFront key => DeleteFront m key s
  | OpDeleteBack key => DeleteBack m key s
  | OpFront order => (Front_in order m s).2
  | OpBack order => (Back_in order m s).2
  | OpLen => (Len m s).2
  end.

Definition run (m : BiMap) (ops : list op) (s : store) : store :=
  foldl (exec m) s ops.

(** Both maps of [m] are allocated, as after [New]. *)
Definition allocated (m : BiMap) (s : store) : Prop :=
  is_Some (maps_TU s !! front m) ∧ is_Some (maps_UT s !! back m).

End store.

Arguments store T {_ _} U {_ _}.
Arguments mutation T U : clear implicits.
Arguments op T U : clear implicits.

End Store.

(** The value of a [BiMap] struct in a store: the entries of its two map
    objects.  This is the state the value layer works on. *)
Definition contents `{Countable T} `{Countable U}
    (m : Store.BiMap) (s : Store.store T U) : BiMap T U :=
  {| front := Store.load_TU s (Store.front m);
     back := Store.load_UT s (Store.back m) |}.

(** ** Enumeration with a visitor *)

Section visitor.
Context `{Countable T} `{Countable U}.

(** [For(fn)]: [fn(f, b)] is called for each entry of [m.front], in the
    visiting order.  What the visitor does to the variables it captures is
    a transformer of a state [S]; the visitor does not call the map it is
    visiting (the read lock is held while it runs). *)
Definition For_in {S : Type} (order : list (T * U)) (m : BiMap T U)
    (fn : T → U → S → S) (s : S) : S * BiMap T U :=
  (foldl (λ s fb, fn fb.1 fb.2 s) s order, m).

Definition For {S : Type} (m : BiMap T U) (fn : T → U → S → S) (s : S)
    : S * BiMap T U :=
  For_in (map_to_list (front m)) m fn s.

(** No two keys of the map share a value. *)
Definition injective (io : gmap T U) : Prop :=
  ∀ k1 k2 v, io !! k1 = Some v → io !! k2 = Some v → k1 = k2.

End visitor.

(** ** Clients of the store layer *)

Section clients.
Context `{Countable T} `{Countable U} `{GoZero T} `{GoZero U}.

(** What the holder of a [map[U]T] reference can do to the object. *)
Definition mutate_back (a : positive) (s : Store.store T U)
    (c : Store.mutation U T) : Store.store T U :=
  match c with
  | Store.Assign k v => Store.assign_UT a k v s
  | Store.Delete k => Store.delete_UT a k s
  end.

(** A program that uses the map [m]: it calls methods of [m], and it
    writes to the maps that [Front] and [Back] have returned to it so far
    (the [i]-th one).  The fields of the struct are unexported, so these
    are the only references to maps of [m]'s types that it gets from the
    package. *)
Inductive event :=
| Call (o : Store.op T U)
| MutateFrontCopy (i : nat) (c : Store.mutation T U)
| MutateBackCopy (i : nat) (c : Store.mutation U T).

Record client := mkClient {
  heap : Store.store T U;
  front_copies : list positive;
  back_copies : list positive;
}.

Definition client_step (m : Store.BiMap) (cl : client) (e : event) : client :=
  match e with
  | Call o =>
      {| heap := Store.exec m (heap cl) o;
         front_copies :=
           match o with
           | Store.OpFront order =>
               front_copies cl ++ [(Store.Front_in order m (heap cl)).1]
           | _ => front_copies cl
           end;
         back_copies :=
           match o with
           | Store.OpBack order =>
               back_copies cl ++ [(Store.Back_in order m (heap cl)).1]
           | _ => back_copies cl
           end |}
  | MutateFrontCopy i c =>
      match front_copies cl !! i with
      | Some a =>
          {| heap := Store.mutate a (heap cl) c;
             front_copies := front_copies cl;
             back_copies := back_copies cl |}
      | None => cl
      end
  | MutateBackCopy i c =>
      match back_copies cl !! i with
      | Some a =>
          {| heap := mutate_back a (heap cl) c;
             front_copies := front_copies cl;
             back_copies := back_copies cl |}
      | None => cl
      end
  end.

Definition client_run (m : Store.BiMap) (es : list event) (s : Store.store T U)
    : client :=
  foldl (client_step m) {| heap := s; front_copies := []; back_copies := [] |} es.

(** What is known of a client at any time: the maps of [m] exist, and no
    reference the client holds is one of them. *)
Definition client_inv (m : Store.BiMap) (cl : client) : Prop :=
  Store.allocated m (heap cl)
  ∧ Forall (λ a, a ≠ Store.front m) (front_copies cl)
  ∧ Forall (λ a, a ≠ Store.back m) (back_copies cl).

(** The call of the value layer that a call of the store layer stands
    for. *)
Definition erase (o : Store.op T U) : op T U :=
  match o with
  | Store.OpGetFront key => OpGetFront key
  | Store.OpGetBack key => OpGetBack key
  | Store.OpSetFront key val => OpSetFront key val
  | Store.OpSetBack key val => OpSetBack key val
  | Store.OpDeleteFront key => OpDeleteFront key
  | Store.OpDeleteBack key => OpDeleteBack key
  | Store.OpFront order => OpFront order
  | Store.OpBack order => OpBack order
  | Store.OpLen => OpLen
  end.

(** The calls on the map that a program makes, in order. *)
Definition calls (es : list event) : list (op T U) :=
  omap (λ e, match e with Call o => Some (erase o) | _ => None end) es.

End clients.

Arguments event T U : clear implicits.
Arguments client T {_ _} U {_ _}.

(** ** The tests of the package (bimap_test.go)

    [*testing.T] is the list of the messages passed to [t.Error] and
    [t.Errorf]; a test passes when the list is empty.  Each test fixes
    [k, v := "k", "v"]; the body is given for any two strings. *)

Definition TestGetSetFront_body (k v : string) : list string :=
  let t : list string := [] in
  let m : BiMap string string := New [] in
  let m := (SetFront m k v).2 in
  let '((val, ok), m) := GetFront m k in
  let t := if negb ok then t ++ ["Key not exists"] else t in
  let t :=
    if bool_decide (v ≠ val)
    then t ++ ["Values not equal, want: " +:+ v +:+ ", got: " +:+ val]
    else t in
  t.

Definition TestGetSetBack_body (k v : string) : list string :=
  let t : list string := [] in
  let m : BiMap string string := New [] in
  let m := (SetBack m k v).2 in
  let '((val, ok), m) := GetBack m k in
  let t := if negb ok then t ++ ["Key not exists"] else t in
  let t :=
    if bool_decide (v ≠ val)
    then t ++ ["Values not equal, want: " +:+ v +:+ ", got: " +:+ val]
    else t in
  t.

Definition TestDeleteFront_body (k v : string) : list string :=
  let t : list string := [] in
  let m : BiMap string string := New [] in
  let m := (SetFront m k v).2 in
  let m := DeleteFront m k in
  let '((_, ok), m) := GetFront m k in
  if ok then t ++ ["Should be deleted"] else t.

Definition TestDeleteBack_body (k v : string) : list string :=
  let t : list string := [] in
  let m : BiMap string string := New [] in
  let m := (SetBack m k v).2 in
  let m := DeleteBack m k in
  let '((_, ok), m) := GetFront m k in
  if ok then t ++ ["Should be deleted"] else t.

Definition TestGetSetFront : list string := TestGetSetFront_body "k" "v".
Definition TestGetSetBack : list string := TestGetSetBack_body "k" "v".
Definition TestDeleteFront : list string := TestDeleteFront_body "k" "v".
Definition TestDeleteBack : list string := TestDeleteBack_body "k" "v".

(** ** Example states

    Maps from strings to strings, as in the tests of the package. *)

Definition ex_empty : BiMap string string := New [].

(** [m := New(); m.SetFront("k", "v")] *)
Definition ex_kv : BiMap string string := (SetFront ex_empty "k" "v").2.

(** ... then [m.SetFront("a", "b")] *)
Definition ex_two : BiMap string string := (SetFront ex_kv "a" "b").2.

Definition ex_store0 : Store.store string string :=
  {| Store.maps_TU := ∅; Store.maps_UT := ∅ |}.

(** The same map as [ex_kv], as a struct of references and a store. *)
Definition ex_ref : Store.BiMap := (Store.New [] ex_store0).1.

Definition ex_store : Store.store string string :=
  (Store.SetFront ex_ref "k" "v" (Store.New [] ex_store0).2).2.

(** * Properties *)

(** ** The index expression *)

Lemma index_Some `{Countable K} `{GoZero V} (m : gmap K V) k v :
  m !! k = Some v → index m k = (v, true).
Proof. unfold index. by intros ->. Qed.

Lemma index_None `{Countable K} `{GoZero V} (m : gmap K V) k :
  m !! k = None → index m k = (go_zero, false).
Proof. unfold index. by intros ->. Qed.

Lemma index_true `{Countable K} `{GoZero V} (m : gmap K V) k v :
  index m k = (v, true) ↔ m !! k = Some v.
Proof.
  unfold index. destruct (m !! k) as [w|]; split; intros E;
    by simplify_eq.
Qed.

Lemma index_ok `{Countable K} `{GoZero V} (m : gmap K V) k :
  (index m k).2 = true ↔ is_Some (m !! k).
Proof.
  unfold index. rewrite is_Some_alt. by destruct (m !! k).
Qed.

Lemma index_not_ok `{Countable K} `{GoZero V} (m : gmap K V) k :
  (index m k).2 = false ↔ m !! k = None.
Proof. unfold index. by destruct (m !! k). Qed.

(** ** Methods of the value layer *)

Section bimap_methods.
Context `{Countable T} `{Countable U} `{GoZero T} `{GoZero U}.
Implicit Types (m : BiMap T U) (k : T) (v : U).

(** The collision test of [SetFront], read off the two containers. *)
Lemma SetFront_error m k v :
  (SetFront m k v).1 = Some ErrKeyValExists
  ↔ is_Some (front m !! k) ∨ is_Some (back m !! v).
Proof.
  unfold SetFront. rewrite <-!index_ok.
  destruct (index (front m) k).2, (index (back m) v).2; simpl; intuition congruence.
Qed.

Lemma SetFront_nil m k v :
  (SetFront m k v).1 = None ↔ front m !! k = None ∧ back m !! v = None.
Proof.
  unfold SetFront. rewrite <-!index_not_ok.
  destruct (index (front m) k).2, (index (back m) v).2; simpl; intuition congruence.
Qed.

Lemma SetFront_fresh m k v :
  front m !! k = None → back m !! v = None →
  SetFront m k v
  = (None, {| front := <[k := v]> (front m); back := <[v := k]> (back m) |}).
Proof.
  intros Hk Hv. unfold SetFront.
  by rewrite (index_None _ _ Hk), (index_None _ _ Hv).
Qed.

Lemma SetFront_rejected m k v :
  is_Some (front m !! k) ∨ is_Some (back m !! v) →
  SetFront m k v = (Some ErrKeyValExists, m).
Proof.
  intros Hex. apply SetFront_error in Hex. revert Hex. unfold SetFront.
  by destruct (if negb _ then _ else _).
Qed.

Lemma SetBack_nil m (k : U) (v : T) :
  (SetBack m k v).1 = None ↔ back m !! k = None ∧ front m !! v = None.
Proof.
  unfold SetBack. rewrite <-!index_not_ok.
  destruct (index (back m) k).2, (index (front m) v).2; simpl; intuition congruence.
Qed.

Lemma SetBack_fresh m (k : U) (v : T) :
  back m !! k = None → front m !! v = None →
  SetBack m k v
  = (None, {| front := <[v := k]> (front m); back := <[k := v]> (back m) |}).
Proof.
  intros Hk Hv. unfold SetBack.
  by rewrite (index_None _ _ Hk), (index_None _ _ Hv).
Qed.

Lemma SetBack_rejected m (k : U) (v : T) :
  (SetBack m k v).1 ≠ None → (SetBack m k v).2 = m.
Proof. unfold SetBack. by destruct (if negb _ then _ else _). Qed.

Lemma DeleteFront_present m k v :
  front m !! k = Some v →
  DeleteFront m k
  = {| front := delete k (front m); back := delete v (back m) |}.
Proof. intros Hk. unfold DeleteFront. by rewrite (index_Some _ _ _ Hk). Qed.

Lemma DeleteFront_absent m k : front m !! k = None → DeleteFront m k = m.
Proof. intros Hk. unfold DeleteFront. by rewrite (index_None _ _ Hk). Qed.

Lemma DeleteBack_present m (k : U) (v : T) :
  back m !! k = Some v →
  DeleteBack m k
  = {| front := delete v (front m); back := delete k (back m) |}.
Proof. intros Hk. unfold DeleteBack. by rewrite (index_Some _ _ _ Hk). Qed.

Lemma DeleteBack_absent m (k : U) : back m !! k = None → DeleteBack m k = m.
Proof. intros Hk. unfold DeleteBack. by rewrite (index_None _ _ Hk). Qed.

Lemma GetFront_eq m k : GetFront m k = (index (front m) k, m).
Proof. unfold GetFront. by destruct (index (front m) k). Qed.

Lemma GetBack_eq m (k : U) : GetBack m k = (index (back m) k, m).
Proof. unfold GetBack. by destruct (index (back m) k). Qed.

(** C2. [SetFront(k, v)] returns the collision error exactly when [k] is a
    key of the front container or [v] is a key of the back container; a
    rejected call leaves the whole map as it was; a successful call adds
    the entry [(k, v)] to the front container and the entry [(v, k)] to
    the back container. *)
Theorem SetFront_collision_atomic m k v :
  ((SetFront m k v).1 = Some ErrKeyValExists
   ↔ is_Some (front m !! k) ∨ is_Some (back m !! v))
  ∧ ((SetFront m k v).1 = Some ErrKeyValExists → (SetFront m k v).2 = m)
  ∧ ((SetFront m k v).1 = None →
     front m !! k = None ∧ back m !! v = None
     ∧ front (SetFront m k v).2 = <[k := v]> (front m)
     ∧ back (SetFront m k v).2 = <[v := k]> (back m)).
Proof.
  split; [apply SetFront_error|]. split.
  - intros Herr. apply SetFront_error in Herr.
    by rewrite (SetFront_rejected _ _ _ Herr).
  - intros Hnil. apply SetFront_nil in Hnil as [Hk Hv].
    by rewrite (SetFront_fresh _ _ _ Hk Hv).
Qed.

(** C4. When the map already holds the pair [(k, v)], [SetFront(k, v)]
    returns the collision error (and changes nothing): setting a pair
    again is not a successful no-op. *)
Theorem SetFront_identical_pair_rejected m k v :
  front m !! k = Some v →
  SetFront m k v = (Some ErrKeyValExists, m).
Proof. intros Hk. apply SetFront_rejected. left. by rewrite Hk. Qed.

(** C5. After a successful [SetFront(k, v)], [GetFront(k)] returns
    [(v, true)] and [GetBack(v)] returns [(k, true)]. *)
Theorem SetFront_then_get m k v :
  (SetFront m k v).1 = None →
  (GetFront (SetFront m k v).2 k).1 = (v, true)
  ∧ (GetBack (SetFront m k v).2 v).1 = (k, true).
Proof.
  intros Hnil. apply SetFront_nil in Hnil as [Hk Hv].
  rewrite (SetFront_fresh _ _ _ Hk Hv), GetFront_eq, GetBack_eq. simpl.
  split; apply index_Some, lookup_insert_eq.
Qed.

(** C6. [DeleteFront(k)] on a map whose front container holds [(k, v)]
    deletes [k] from the front container and [v] from the back container,
    after which [GetFront(k)] and [GetBack(v)] report absence; on a map
    without the key [k] it returns the map as it was.  The method has no
    error result. *)
Theorem DeleteFront_both_sides m k :
  (∀ v, front m !! k = Some v →
     front (DeleteFront m k) = delete k (front m)
     ∧ back (DeleteFront m k) = delete v (back m)
     ∧ (GetFront (DeleteFront m k) k).1 = (go_zero, false)
     ∧ (GetBack (DeleteFront m k) v).1 = (go_zero, false))
  ∧ (front m !! k = None → DeleteFront m k = m).
Proof.
  split; [|apply DeleteFront_absent].
  intros v Hk. rewrite (DeleteFront_present _ _ _ Hk), GetFront_eq, GetBack_eq.
  simpl. repeat split; apply index_None, lookup_delete_eq.
Qed.

(** C9. [GetFront] of a key absent from the front container returns the
    zero value of the value type and [false], and the map is as before;
    the same for [GetBack] and the back container. *)
Theorem Get_absent_zero m :
  (∀ k, front m !! k = None → GetFront m k = ((go_zero, false), m))
  ∧ (∀ b, back m !! b = None → GetBack m b = ((go_zero, false), m)).
Proof.
  split; intros x Hx.
  - by rewrite GetFront_eq, (index_None _ _ Hx).
  - by rewrite GetBack_eq, (index_None _ _ Hx).
Qed.

(** C10. [DeleteFront(k)] on a map holding the pair [(k, v)] changes no
    other lookup: [GetFront(k')] for [k' ≠ k] and [GetBack(b)] for
    [b ≠ v] return what they returned before. *)
Theorem DeleteFront_frame m k v :
  front m !! k = Some v →
  (∀ k', k' ≠ k →
     (GetFront (DeleteFront m k) k').1 = (GetFront m k').1)
  ∧ (∀ b, b ≠ v →
     (GetBack (DeleteFront m k) b).1 = (GetBack m b).1).
Proof.
  intros Hk. rewrite (DeleteFront_present _ _ _ Hk).
  split; intros x Hx; rewrite ?GetFront_eq, ?GetBack_eq; simpl;
    unfold index; by rewrite lookup_delete_ne.
Qed.

(** *** The inverse-consistency invariant *)

Lemma consistent_New (options : list (option_ T U)) : consistent (New options).
Proof. intros f b. simpl. by rewrite !lookup_empty. Qed.

Lemma consistent_SetFront m k v : consistent m → consistent (SetFront m k v).2.
Proof.
  intros Hm. destruct (SetFront m k v).1 eqn:Hres.
  - assert ((SetFront m k v).1 = Some ErrKeyValExists) as Herr
      by (rewrite Hres; by destruct e).
    apply SetFront_error in Herr. by rewrite (SetFront_rejected _ _ _ Herr).
  - apply SetFront_nil in Hres as [Hk Hv].
    rewrite (SetFront_fresh _ _ _ Hk Hv). intros f b. simpl.
    destruct (decide (f = k)) as [->|Hf], (decide (b = v)) as [->|Hb];
      rewrite ?lookup_insert_eq, ?lookup_insert_ne by done.
    + done.
    + split; [congruence|]. intros Hb'. apply Hm in Hb'. congruence.
    + split; [|congruence]. intros Hf'. apply Hm in Hf'. congruence.
    + apply Hm.
Qed.

Lemma consistent_SetBack m (k : U) (v : T) :
  consistent m → consistent (SetBack m k v).2.
Proof.
  intros Hm. destruct (SetBack m k v).1 eqn:Hres.
  - rewrite SetBack_rejected; [done | by rewrite Hres].
  - apply SetBack_nil in Hres as [Hk Hv].
    rewrite (SetBack_fresh _ _ _ Hk Hv). intros f b. simpl.
    destruct (decide (f = v)) as [->|Hf], (decide (b = k)) as [->|Hb];
      rewrite ?lookup_insert_eq, ?lookup_insert_ne by done.
    + done.
    + split; [congruence|]. intros Hb'. apply Hm in Hb'. congruence.
    + split; [|congruence]. intros Hf'. apply Hm in Hf'. congruence.
    + apply Hm.
Qed.

Lemma consistent_delete m k v :
  consistent m → front m !! k = Some v →
  consistent {| front := delete k (front m); back := delete v (back m) |}.
Proof.
  intros Hm Hk f b. simpl.
  destruct (decide (f = k)) as [->|Hf], (decide (b = v)) as [->|Hb];
    rewrite ?lookup_delete_eq, ?lookup_delete_ne by done.
  - done.
  - split; [done|]. intros Hb'. apply Hm in Hb'. congruence.
  - split; [|done]. intros Hf'. apply Hm in Hf'. apply Hm in Hk. congruence.
  - apply Hm.
Qed.

Lemma consistent_DeleteFront m k : consistent m → consistent (DeleteFront m k).
Proof.
  intros Hm. destruct (front m !! k) as [v|] eqn:Hk.
  - rewrite (DeleteFront_present _ _ _ Hk). by apply consistent_delete.
  - by rewrite DeleteFront_absent.
Qed.

Lemma consistent_DeleteBack m (k : U) : consistent m → consistent (DeleteBack m k).
Proof.
  intros Hm. destruct (back m !! k) as [v|] eqn:Hk.
  - rewrite (DeleteBack_present _ _ _ Hk). apply consistent_delete; [done|].
    by apply Hm.
  - by rewrite DeleteBack_absent.
Qed.

Lemma exec_read_only `{GoFmt T} `{GoFmt U} m (o : op T U) :
  match o with
  | OpSetFront _ _ | OpSetBack _ _ | OpDeleteFront _ | OpDeleteBack _ => True
  | _ => exec m o = m
  end.
Proof. destruct o; simpl; rewrite ?GetFront_eq, ?GetBack_eq; done. Qed.

Lemma consistent_exec `{GoFmt T} `{GoFmt U} m (o : op T U) :
  consistent m → consistent (exec m o).
Proof.
  intros Hm. pose proof (exec_read_only m o) as Hro.
  destruct o; rewrite ?Hro; try done; simpl.
  - by apply consistent_SetFront.
  - by apply consistent_SetBack.
  - by apply consistent_DeleteFront.
  - by apply consistent_DeleteBack.
Qed.

Lemma consistent_run `{GoFmt T} `{GoFmt U} (ops : list (op T U)) m :
  consistent m → consistent (run ops m).
Proof.
  unfold run. revert m. induction ops as [|o ops IH]; intros m Hm; [done|].
  simpl. by apply IH, consistent_exec.
Qed.

(** Inverse containers have the same number of entries. *)
Lemma consistent_size m : consistent m → size (front m) = size (back m).
Proof.
  intros Hm. rewrite <-!length_map_to_list.
  rewrite <-(length_fmap prod_swap (map_to_list (front m))).
  apply Permutation_length, NoDup_Permutation.
  - apply (NoDup_fmap_2 _), NoDup_map_to_list.
  - apply NoDup_map_to_list.
  - intros [b f]. rewrite elem_of_map_to_list, list_elem_of_fmap. split.
    + intros [[f' b'] [[= -> ->] Hin]]. by apply Hm, elem_of_map_to_list.
    + intros Hb. exists (f, b). split; [done|].
      by apply elem_of_map_to_list, Hm.
Qed.

(** C1. Run any sequence of calls (writes and reads) on the empty map made
    by [New] and stop after any number of them: in the state reached,
    [GetFront(f)] returns [(b, true)] exactly when [GetBack(b)] returns
    [(f, true)], and [Len()] is the number of entries of the front
    container and of the back container. *)
Theorem inverse_consistency `{GoFmt T} `{GoFmt U} (ops : list (op T U)) (n : nat) :
  let m := run (take n ops) (New []) in
  (∀ f b, (GetFront m f).1 = (b, true) ↔ (GetBack m b).1 = (f, true))
  ∧ (Len m).1 = Z.of_nat (size (front m))
  ∧ (Len m).1 = Z.of_nat (size (back m)).
Proof.
  intros m.
  assert (consistent m) as Hm by apply consistent_run, consistent_New.
  split; [|split].
  - intros f b. rewrite GetFront_eq, GetBack_eq. simpl.
    rewrite !index_true. apply Hm.
  - done.
  - simpl. by rewrite (consistent_size _ Hm).
Qed.

End bimap_methods.

(** ** Ranging over a map *)

Section range.
Context `{Countable K} {V : Type}.
Implicit Types (fm : gmap K V) (order : list (K * V)).

Lemma range_order_canonical fm : range_order fm (map_to_list fm).
Proof. by unfold range_order. Qed.

Lemma range_order_NoDup_keys fm order : range_order fm order → NoDup order.*1.
Proof.
  unfold range_order. intros ->. apply NoDup_fst_map_to_list.
Qed.

Lemma range_order_elem fm order k v :
  range_order fm order → (k, v) ∈ order ↔ fm !! k = Some v.
Proof. unfold range_order. intros ->. apply elem_of_map_to_list. Qed.

Lemma range_order_length fm order : range_order fm order → length order = size fm.
Proof. unfold range_order. intros ->. apply length_map_to_list. Qed.

(** The copying loop [for k, v := range fm { nm[k] = v }] *)
Lemma foldl_insert_list_to_map order (nm : gmap K V) :
  foldl (λ nm kv, <[kv.1 := kv.2]> nm) nm order
  = foldr (λ kv, <[kv.1 := kv.2]>) nm (reverse order).
Proof.
  revert nm. induction order as [|kv order IH]; intros nm; [done|].
  simpl. by rewrite IH, reverse_cons, foldr_app.
Qed.

Lemma copy_loop fm order :
  range_order fm order →
  foldl (λ nm kv, <[kv.1 := kv.2]> nm) (∅ : gmap K V) order = fm.
Proof.
  intros Hord. rewrite foldl_insert_list_to_map.
  change (foldr _ ∅ (reverse order)) with (list_to_map (reverse order) : gmap K V).
  rewrite <-(list_to_map_to_list fm). apply list_to_map_proper.
  - rewrite fmap_reverse, reverse_Permutation.
    by eapply range_order_NoDup_keys.
  - by rewrite reverse_Permutation.
Qed.

End range.

(** ** Construction *)

Section construction.
Context `{Countable T} `{Countable U} `{GoZero T} `{GoZero U}.
Implicit Types (m : BiMap T U) (io : gmap T U).

(** What [initialOption.apply] does when it is called: every pair of the
    initial map ends up in the front container. *)
Lemma apply_in_front order m k v :
  NoDup order.*1 → (k, v) ∈ order → front (apply_in order m) !! k = Some v.
Proof.
  unfold apply_in. induction order as [|kv order IH] using rev_ind; intros Hnd Hin.
  - by apply elem_of_nil in Hin.
  - rewrite foldl_snoc. simpl.
    rewrite fmap_app in Hnd. apply NoDup_app in Hnd as (Hnd & Hdisj & _).
    apply elem_of_app in Hin as [Hin|Hin].
    + rewrite lookup_insert_ne; [by apply IH|].
      intros Heq. apply (Hdisj k).
      * apply list_elem_of_fmap. by exists (k, v).
      * rewrite <-Heq. simpl. apply list_elem_of_here.
    + apply list_elem_of_singleton in Hin as <-. simpl.
      apply lookup_insert_eq.
Qed.

Lemma apply_copies io m k v :
  io !! k = Some v →
  (GetFront (apply (WithInitialMap io) m) k).1 = (v, true).
Proof.
  intros Hk. rewrite GetFront_eq. simpl. apply index_Some, apply_in_front.
  - apply NoDup_fst_map_to_list.
  - by apply elem_of_map_to_list.
Qed.

Lemma New_ignores_options (options : list (option_ T U)) : New options = New [].
Proof. done. Qed.

(** C3. [New] called with the option [WithInitialMap(io)] returns the
    empty map: no pair of [io] is copied, [GetFront] finds no key and
    [Len()] is 0.  (The claim asks for [GetFront(k) = (v, true)] for each
    pair of [io]; [apply_copies] shows that [initialOption.apply] would
    do that, but [New] never calls it.) *)
Theorem New_drops_initial_map io k :
  New [WithInitialMap io] = {| front := ∅; back := ∅ |}
  ∧ (GetFront (New [WithInitialMap io]) k).1 = (go_zero, false)
  ∧ (Len (New [WithInitialMap io])).1 = 0%Z.
Proof.
  split; [done|]. split; [|done].
  rewrite GetFront_eq. simpl. apply index_None, lookup_empty.
Qed.

End construction.

(** ** The debug rendering *)

Lemma string_app_assoc (s1 s2 s3 : string) :
  (s1 +:+ s2) +:+ s3 = s1 +:+ s2 +:+ s3.
Proof.
  induction s1 as [|a s1 IH]; [done|].
  change (String.String a ((s1 +:+ s2) +:+ s3)
          = String.String a (s1 +:+ s2 +:+ s3)).
  by rewrite IH.
Qed.

Lemma Join_foldl_prefix (sep a e : string) (rest : list string) :
  foldl (λ b s, b +:+ sep +:+ s) (a +:+ e) rest
  = a +:+ foldl (λ b s, b +:+ sep +:+ s) e rest.
Proof.
  revert e. induction rest as [|r rest IH]; intros e; simpl; [done|].
  by rewrite string_app_assoc, IH.
Qed.

(** [strings.Join] puts the separator between consecutive elements. *)
Lemma Join_concat (elems : list string) (sep : string) :
  Join elems sep = String.concat sep elems.
Proof.
  destruct elems as [|e rest]; [done|]. simpl.
  revert e. induction rest as [|r rest IH]; intros e; [done|].
  simpl. rewrite <-IH. by rewrite <-!Join_foldl_prefix.
Qed.

Lemma append_loop {A} (f : A → string) (order : list A) (pairs : list string) :
  foldl (λ pairs x, pairs ++ [f x]) pairs order = pairs ++ (f <$> order).
Proof.
  revert pairs. induction order as [|x order IH]; intros pairs; simpl.
  - by rewrite app_nil_r.
  - by rewrite IH, <-app_assoc.
Qed.

Section rendering.
Context `{Countable T} `{Countable U} `{GoFmt T} `{GoFmt U}.
Implicit Types (m : BiMap T U).

Lemma String_in_eq order m :
  String_in order m
  = ("map[" +:+ String.concat " " ((λ fb, Sprintf_pair fb.1 fb.2) <$> order) +:+ "]", m).
Proof. unfold String_in. by rewrite append_loop, Join_concat. Qed.

(** C8. Whatever order the runtime visits the front container in,
    [String()] returns ["map["], then the tokens joined by single spaces,
    then ["]"], where the tokens are the texts [key:value] of the pairs of
    the front container, each pair once (one token per pair, [Len()] in
    all), in the visiting order; the empty map gives ["map[]"].  The map
    is not changed. *)
Theorem String_format m (order : list (T * U)) :
  range_order (front m) order →
  ∃ tokens : list string,
    tokens = (λ fb, fmt_v fb.1 +:+ ":" +:+ fmt_v fb.2) <$> order
    ∧ tokens ≡ₚ (λ fb, fmt_v fb.1 +:+ ":" +:+ fmt_v fb.2) <$> map_to_list (front m)
    ∧ Z.of_nat (length tokens) = (Len m).1
    ∧ (String_in order m).1 = "map[" +:+ String.concat " " tokens +:+ "]"
    ∧ (front m = ∅ → (String_in order m).1 = "map[]")
    ∧ (String_in order m).2 = m.
Proof.
  intros Hord. eexists. split; [done|]. rewrite String_in_eq. simpl.
  split; [by rewrite Hord|]. split.
  { by rewrite length_fmap, (range_order_length _ _ Hord). }
  split; [done|]. split; [|done].
  intros Hempty. unfold range_order in Hord.
  rewrite Hempty, map_to_list_empty in Hord.
  by apply Permutation_nil_r in Hord as ->.
Qed.

End rendering.

(** ** The store layer *)

Section store_objects.
Context `{Countable T} `{Countable U}.
Implicit Types (s : Store.store T U) (a nm : positive).

Lemma make_TU_fresh s : Store.maps_TU s !! (Store.make_TU s).1 = None.
Proof. simpl. apply not_elem_of_dom, is_fresh. Qed.

Lemma make_UT_fresh s : Store.maps_UT s !! (Store.make_UT s).1 = None.
Proof. simpl. apply not_elem_of_dom, is_fresh. Qed.

Lemma load_TU_Some s a fm : Store.maps_TU s !! a = Some fm → Store.load_TU s a = fm.
Proof. unfold Store.load_TU. by intros ->. Qed.

Lemma load_UT_Some s a bm : Store.maps_UT s !! a = Some bm → Store.load_UT s a = bm.
Proof. unfold Store.load_UT. by intros ->. Qed.

Lemma load_assign_TU s a k v :
  is_Some (Store.maps_TU s !! a) →
  Store.load_TU (Store.assign_TU a k v s) a = <[k := v]> (Store.load_TU s a).
Proof.
  intros [fm Hfm]. unfold Store.load_TU. simpl.
  by rewrite lookup_alter_eq, Hfm.
Qed.

Lemma load_assign_UT s a k v :
  is_Some (Store.maps_UT s !! a) →
  Store.load_UT (Store.assign_UT a k v s) a = <[k := v]> (Store.load_UT s a).
Proof.
  intros [bm Hbm]. unfold Store.load_UT. simpl.
  by rewrite lookup_alter_eq, Hbm.
Qed.

Lemma load_delete_TU s a k :
  Store.load_TU (Store.delete_TU a k s) a = delete k (Store.load_TU s a).
Proof.
  unfold Store.load_TU. simpl. rewrite lookup_alter_eq.
  destruct (Store.maps_TU s !! a); simpl; [done|]. by rewrite delete_empty.
Qed.

Lemma load_delete_UT s a k :
  Store.load_UT (Store.delete_UT a k s) a = delete k (Store.load_UT s a).
Proof.
  unfold Store.load_UT. simpl. rewrite lookup_alter_eq.
  destruct (Store.maps_UT s !! a); simpl; [done|]. by rewrite delete_empty.
Qed.

(** Writes to an object of one type leave the objects of the other type. *)
Lemma load_TU_assign_UT s a (k : U) (v : T) a' :
  Store.load_TU (Store.assign_UT a k v s) a' = Store.load_TU s a'.
Proof. done. Qed.

Lemma load_UT_assign_TU s a (k : T) (v : U) a' :
  Store.load_UT (Store.assign_TU a k v s) a' = Store.load_UT s a'.
Proof. done. Qed.

Lemma load_TU_delete_UT s a (k : U) a' :
  Store.load_TU (Store.delete_UT a k s) a' = Store.load_TU s a'.
Proof. done. Qed.

Lemma load_UT_delete_TU s a (k : T) a' :
  Store.load_UT (Store.delete_TU a k s) a' = Store.load_UT s a'.
Proof. done. Qed.

(** The copying loop of [Front] writes to the object [nm] only. *)
Lemma copy_into_TU_eq nm order s :
  Store.maps_TU (foldl (λ s kv, Store.assign_TU nm kv.1 kv.2 s) s order) !! nm
  = (λ fm, foldl (λ fm kv, <[kv.1 := kv.2]> fm) fm order)
      <$> Store.maps_TU s !! nm.
Proof.
  revert s. induction order as [|kv order IH]; intros s; simpl.
  - by destruct (Store.maps_TU s !! nm).
  - rewrite IH. simpl. rewrite lookup_alter_eq.
    by destruct (Store.maps_TU s !! nm).
Qed.

Lemma copy_into_TU_ne nm order s a :
  a ≠ nm →
  Store.maps_TU (foldl (λ s kv, Store.assign_TU nm kv.1 kv.2 s) s order) !! a
  = Store.maps_TU s !! a.
Proof.
  intros Ha. revert s. induction order as [|kv order IH]; intros s; simpl; [done|].
  rewrite IH. simpl. by rewrite lookup_alter_ne.
Qed.

Lemma copy_into_TU_other nm order s :
  Store.maps_UT (foldl (λ s kv, Store.assign_TU nm kv.1 kv.2 s) s order)
  = Store.maps_UT s.
Proof.
  revert s. induction order as [|kv order IH]; intros s; simpl; [done|].
  by rewrite IH.
Qed.

Lemma copy_into_UT_other nm order s :
  Store.maps_TU (foldl (λ s kv, Store.assign_UT nm kv.1 kv.2 s) s order)
  = Store.maps_TU s.
Proof.
  revert s. induction order as [|kv order IH]; intros s; simpl; [done|].
  by rewrite IH.
Qed.

Lemma copy_into_UT_ne nm order s a :
  a ≠ nm →
  Store.maps_UT (foldl (λ s kv, Store.assign_UT nm kv.1 kv.2 s) s order) !! a
  = Store.maps_UT s !! a.
Proof.
  intros Ha. revert s. induction order as [|kv order IH]; intros s; simpl; [done|].
  rewrite IH. simpl. by rewrite lookup_alter_ne.
Qed.

(** Mutations through one reference leave the other objects alone. *)
Lemma mutate_TU_ne nm (cs : list (Store.mutation T U)) s a :
  a ≠ nm →
  Store.maps_TU (foldl (Store.mutate nm) s cs) !! a = Store.maps_TU s !! a.
Proof.
  intros Ha. revert s. induction cs as [|c cs IH]; intros s; simpl; [done|].
  rewrite IH. destruct c; simpl; by rewrite lookup_alter_ne.
Qed.

Lemma mutate_UT nm (cs : list (Store.mutation T U)) s :
  Store.maps_UT (foldl (Store.mutate nm) s cs) = Store.maps_UT s.
Proof.
  revert s. induction cs as [|c cs IH]; intros s; simpl; [done|].
  rewrite IH. by destruct c.
Qed.

End store_objects.

Section store_methods.
Context `{Countable T} `{Countable U} `{GoZero T} `{GoZero U}.
Implicit Types (s : Store.store T U) (m : Store.BiMap) (a nm : positive).

(** *** The snapshot *)

Lemma Front_in_new_address order m s :
  Store.maps_TU s !! (Store.Front_in order m s).1 = None.
Proof. apply make_TU_fresh. Qed.

Lemma Front_in_copy order m s :
  Store.maps_TU (Store.Front_in order m s).2 !! (Store.Front_in order m s).1
  = Some (foldl (λ fm kv, <[kv.1 := kv.2]> fm) ∅ order).
Proof.
  unfold Store.Front_in. simpl. rewrite copy_into_TU_eq. simpl.
  by rewrite lookup_insert_eq.
Qed.

Lemma Front_in_old_TU order m s a :
  is_Some (Store.maps_TU s !! a) →
  Store.maps_TU (Store.Front_in order m s).2 !! a = Store.maps_TU s !! a.
Proof.
  intros Ha.
  assert (a ≠ fresh (dom (Store.maps_TU s))) as Hne.
  { intros ->. apply elem_of_dom in Ha. by apply is_fresh in Ha. }
  unfold Store.Front_in. simpl.
  rewrite copy_into_TU_ne by done. simpl. by rewrite lookup_insert_ne.
Qed.

Lemma Front_in_UT order m s :
  Store.maps_UT (Store.Front_in order m s).2 = Store.maps_UT s.
Proof. unfold Store.Front_in. simpl. by rewrite copy_into_TU_other. Qed.

Lemma Back_in_TU order m s :
  Store.maps_TU (Store.Back_in order m s).2 = Store.maps_TU s.
Proof. unfold Store.Back_in. simpl. by rewrite copy_into_UT_other. Qed.

Lemma Back_in_old_UT order m s a :
  is_Some (Store.maps_UT s !! a) →
  Store.maps_UT (Store.Back_in order m s).2 !! a = Store.maps_UT s !! a.
Proof.
  intros Ha.
  assert (a ≠ fresh (dom (Store.maps_UT s))) as Hne.
  { intros ->. apply elem_of_dom in Ha. by apply is_fresh in Ha. }
  unfold Store.Back_in. simpl.
  rewrite copy_into_UT_ne by done. simpl. by rewrite lookup_insert_ne.
Qed.

(** *** Each method, seen through [contents], is the method of the value
    layer *)

Lemma sim_New (options : list Store.option_) s :
  Store.allocated (Store.New options s).1 (Store.New options s).2
  ∧ contents (Store.New options s).1 (Store.New options s).2 = New [].
Proof.
  unfold Store.allocated, contents, Store.load_TU, Store.load_UT. simpl.
  rewrite !lookup_insert_eq. by eauto.
Qed.

Lemma sim_GetFront m key s :
  Store.GetFront m key s = ((GetFront (contents m s) key).1, s).
Proof.
  unfold Store.GetFront. rewrite GetFront_eq. simpl.
  by destruct (index (Store.load_TU s (Store.front m)) key).
Qed.

Lemma sim_GetBack m key s :
  Store.GetBack m key s = ((GetBack (contents m s) key).1, s).
Proof.
  unfold Store.GetBack. rewrite GetBack_eq. simpl.
  by destruct (index (Store.load_UT s (Store.back m)) key).
Qed.

Lemma sim_Len m s : Store.Len m s = ((Len (contents m s)).1, s).
Proof. done. Qed.

Lemma sim_SetFront m key val s :
  Store.allocated m s →
  (Store.SetFront m key val s).1 = (SetFront (contents m s) key val).1
  ∧ contents m (Store.SetFront m key val s).2
    = (SetFront (contents m s) key val).2.
Proof.
  intros [Hf Hb]. unfold Store.SetFront, SetFront. simpl.
  destruct (if negb _ then _ else _); simpl; [done|]. split; [done|].
  unfold contents.
  rewrite ?load_TU_assign_UT, ?load_UT_assign_TU.
  by rewrite load_assign_TU, load_assign_UT.
Qed.

Lemma sim_SetBack m key val s :
  Store.allocated m s →
  (Store.SetBack m key val s).1 = (SetBack (contents m s) key val).1
  ∧ contents m (Store.SetBack m key val s).2
    = (SetBack (contents m s) key val).2.
Proof.
  intros [Hf Hb]. unfold Store.SetBack, SetBack. simpl.
  destruct (if negb _ then _ else _); simpl; [done|]. split; [done|].
  unfold contents.
  rewrite ?load_TU_assign_UT, ?load_UT_assign_TU.
  by rewrite load_assign_TU, load_assign_UT.
Qed.

Lemma sim_DeleteFront m key s :
  contents m (Store.DeleteFront m key s) = DeleteFront (contents m s) key.
Proof.
  unfold Store.DeleteFront, DeleteFront. simpl.
  destruct (index (Store.load_TU s (Store.front m)) key) as [v []]; simpl; [|done].
  unfold contents.
  rewrite ?load_TU_delete_UT, ?load_UT_delete_TU.
  by rewrite load_delete_TU, load_delete_UT.
Qed.

Lemma sim_DeleteBack m key s :
  contents m (Store.DeleteBack m key s) = DeleteBack (contents m s) key.
Proof.
  unfold Store.DeleteBack, DeleteBack. simpl.
  destruct (index (Store.load_UT s (Store.back m)) key) as [v []]; simpl; [|done].
  unfold contents.
  rewrite ?load_TU_delete_UT, ?load_UT_delete_TU.
  by rewrite load_delete_TU, load_delete_UT.
Qed.

Lemma sim_Front_in order m s :
  Store.allocated m s →
  Store.load_TU (Store.Front_in order m s).2 (Store.Front_in order m s).1
  = (Front_in order (contents m s)).1
  ∧ contents m (Store.Front_in order m s).2 = (Front_in order (contents m s)).2.
Proof.
  intros [Hf Hb]. split.
  - apply load_TU_Some, Front_in_copy.
  - unfold contents, Store.load_TU, Store.load_UT.
    rewrite Front_in_old_TU by done. by rewrite Front_in_UT.
Qed.

(** *** Calls on [m] and the other objects of the store *)

Lemma exec_allocated_TU m s (o : Store.op T U) a :
  is_Some (Store.maps_TU s !! a) →
  is_Some (Store.maps_TU (Store.exec m s o) !! a).
Proof.
  intros Ha. destruct o; cbn [Store.exec].
  - by rewrite sim_GetFront.
  - by rewrite sim_GetBack.
  - unfold Store.SetFront. destruct (if negb _ then _ else _); simpl; [done|].
    by apply lookup_alter_is_Some.
  - unfold Store.SetBack. destruct (if negb _ then _ else _); simpl; [done|].
    by apply lookup_alter_is_Some.
  - unfold Store.DeleteFront.
    destruct (index _ key) as [v []]; simpl; [|done].
    by apply lookup_alter_is_Some.
  - unfold Store.DeleteBack.
    destruct (index _ key) as [v []]; simpl; [|done].
    by apply lookup_alter_is_Some.
  - by rewrite Front_in_old_TU.
  - by rewrite Back_in_TU.
  - done.
Qed.

Lemma exec_other_TU m s (o : Store.op T U) a :
  a ≠ Store.front m →
  is_Some (Store.maps_TU s !! a) →
  Store.maps_TU (Store.exec m s o) !! a = Store.maps_TU s !! a.
Proof.
  intros Hne Ha. destruct o; cbn [Store.exec].
  - by rewrite sim_GetFront.
  - by rewrite sim_GetBack.
  - unfold Store.SetFront. destruct (if negb _ then _ else _); simpl; [done|].
    by rewrite lookup_alter_ne.
  - unfold Store.SetBack. destruct (if negb _ then _ else _); simpl; [done|].
    by rewrite lookup_alter_ne.
  - unfold Store.DeleteFront.
    destruct (index _ key) as [v []]; simpl; [|done].
    by rewrite lookup_alter_ne.
  - unfold Store.DeleteBack.
    destruct (index _ key) as [v []]; simpl; [|done].
    by rewrite lookup_alter_ne.
  - by rewrite Front_in_old_TU.
  - by rewrite Back_in_TU.
  - done.
Qed.

Lemma run_other_TU m (ops : list (Store.op T U)) s a :
  a ≠ Store.front m →
  is_Some (Store.maps_TU s !! a) →
  Store.maps_TU (Store.run m ops s) !! a = Store.maps_TU s !! a.
Proof.
  intros Hne. unfold Store.run. revert s.
  induction ops as [|o ops IH]; intros s Ha; simpl; [done|].
  rewrite IH by by apply exec_allocated_TU. by apply exec_other_TU.
Qed.

(** C7. [Front()] on a map whose two containers are allocated returns a
    reference [nm] that no object of the store had before the call; the
    object at [nm] holds exactly the pairs of the front container; the
    call changes nothing of the map itself.  Whatever the caller then
    assigns to or deletes from the object at [nm], [GetFront] (and the
    whole value of the map) stays what it was; and whatever calls are made
    on the map afterwards, the object at [nm] keeps the pairs it was
    returned with. *)
Theorem Front_snapshot_independent m s (order : list (T * U)) :
  Store.allocated m s →
  range_order (Store.load_TU s (Store.front m)) order →
  let nm := (Store.Front_in order m s).1 in
  let s1 := (Store.Front_in order m s).2 in
  (Store.maps_TU s !! nm = None ∧ nm ≠ Store.front m)
  ∧ Store.maps_TU s1 !! nm = Some (front (contents m s))
  ∧ contents m s1 = contents m s
  ∧ (∀ (cs : list (Store.mutation T U)) key,
       contents m (foldl (Store.mutate nm) s1 cs) = contents m s
       ∧ (Store.GetFront m key (foldl (Store.mutate nm) s1 cs)).1
         = (Store.GetFront m key s).1)
  ∧ (∀ (ops : list (Store.op T U)),
       Store.maps_TU (Store.run m ops s1) !! nm = Some (front (contents m s))).
Proof.
  intros Halloc Hord nm s1.
  pose proof (Front_in_new_address order m s) as Hnew. fold nm in Hnew.
  assert (nm ≠ Store.front m) as Hne.
  { intros Heq. destruct Halloc as [[fm Hfm] _]. congruence. }
  assert (Store.maps_TU s1 !! nm = Some (front (contents m s))) as Hcopy.
  { unfold s1, nm. rewrite Front_in_copy. simpl. f_equal. by apply copy_loop. }
  assert (contents m s1 = contents m s) as Hlive.
  { unfold s1. destruct (sim_Front_in order m s Halloc) as [_ Hc].
    by rewrite Hc. }
  split; [done|]. split; [done|]. split; [done|]. split.
  - intros cs key.
    assert (contents m (foldl (Store.mutate nm) s1 cs) = contents m s) as Hcs.
    { rewrite <-Hlive. unfold contents, Store.load_TU, Store.load_UT.
      by rewrite mutate_TU_ne, mutate_UT. }
    split; [done|]. by rewrite !sim_GetFront, Hcs.
  - intros ops. rewrite run_other_TU; [done..|]. by rewrite Hcopy.
Qed.

End store_methods.

(** ** The value returned by [Front] *)

Lemma Front_in_exact `{Countable T} `{Countable U} (m : BiMap T U) order :
  range_order (front m) order → Front_in order m = (front m, m).
Proof. intros Hord. unfold Front_in. by rewrite (copy_loop _ _ Hord). Qed.

Lemma Back_in_exact `{Countable T} `{Countable U} (m : BiMap T U) order :
  range_order (back m) order → Back_in order m = (back m, m).
Proof. intros Hord. unfold Back_in. by rewrite (copy_loop _ _ Hord). Qed.

(** ** Worked examples *)

(** The scenario of the tests: set, get, delete. *)
Example test_GetSetFront : (GetFront ex_kv "k").1 = ("v", true).
Proof. reflexivity. Qed.

Example test_DeleteFront : (GetFront (DeleteFront ex_kv "k") "k").1 = ("", false).
Proof. reflexivity. Qed.

Example test_SetBack_collision : (SetBack ex_kv "v" "k").1 = Some ErrKeyValExists.
Proof. reflexivity. Qed.

Example test_String : (String ex_two).1 = "map[k:v a:b]".
Proof. reflexivity. Qed.

Example test_String_other_order :
  (String_in [("a", "b"); ("k", "v")] ex_two).1 = "map[a:b k:v]".
Proof. reflexivity. Qed.

(** [New(WithInitialMap(map[string]string{"a": "b"}))]: the pair is not
    there, although [apply] on the same option would put it there. *)
Example test_New_WithInitialMap :
  (GetFront (New [WithInitialMap {["a" := "b"]}] : BiMap string string) "a").1
  = ("", false)
  ∧ (GetFront (apply (WithInitialMap {["a" := "b"]}) ex_empty) "a").1
    = ("b", true).
Proof. split; reflexivity. Qed.

(** A write through the reference returned by [Front] is seen at that
    reference and not by the map. *)
Example test_Front_copy_mutated :
  let nm := (Store.Front ex_ref ex_store).1 in
  let s := Store.mutate nm (Store.Front ex_ref ex_store).2 (Store.Delete "k") in
  Store.load_TU s nm !! "k" = None
  ∧ (Store.GetFront ex_ref "k" s).1 = ("v", true).
Proof. split; reflexivity. Qed.

Lemma SetFront_identical_pair_rejected_witness :
  front ex_kv !! "k" = Some "v"
  ∧ SetFront ex_kv "k" "v" = (Some ErrKeyValExists, ex_kv).
Proof.
  split; [reflexivity|].
  apply (SetFront_identical_pair_rejected ex_kv "k" "v"). reflexivity.
Defined.

Lemma SetFront_then_get_witness :
  (SetFront ex_kv "a" "b").1 = None
  ∧ (GetFront (SetFront ex_kv "a" "b").2 "a").1 = ("b", true)
  ∧ (GetBack (SetFront ex_kv "a" "b").2 "b").1 = ("a", true).
Proof.
  split; [reflexivity|].
  apply (SetFront_then_get ex_kv "a" "b"). reflexivity.
Defined.

Lemma SetFront_collision_atomic_witness :
  (SetFront ex_kv "k" "w").1 = Some ErrKeyValExists
  ∧ (SetFront ex_kv "k" "w").2 = ex_kv
  ∧ (SetFront ex_kv "a" "b").1 = None
  ∧ front (SetFront ex_kv "a" "b").2 = <["a" := "b"]> (front ex_kv)
  ∧ back (SetFront ex_kv "a" "b").2 = <["b" := "a"]> (back ex_kv).
Proof.
  split; [reflexivity|]. split.
  - apply (SetFront_collision_atomic ex_kv "k" "w"). reflexivity.
  - split; [reflexivity|].
    apply (SetFront_collision_atomic ex_kv "a" "b"). reflexivity.
Defined.

Lemma DeleteFront_both_sides_witness :
  front ex_kv !! "k" = Some "v"
  ∧ (GetFront (DeleteFront ex_kv "k") "k").1 = ("", false)
  ∧ (GetBack (DeleteFront ex_kv "k") "v").1 = ("", false)
  ∧ front ex_empty !! "missing" = None
  ∧ DeleteFront ex_empty "missing" = ex_empty.
Proof.
  split; [reflexivity|].
  destruct (DeleteFront_both_sides ex_kv "k") as [Hpresent _].
  destruct (Hpresent "v" eq_refl) as (_ & _ & Hf & Hb).
  split; [exact Hf|]. split; [exact Hb|]. split; [reflexivity|].
  apply (DeleteFront_both_sides ex_empty "missing"). reflexivity.
Defined.

Lemma Get_absent_zero_witness :
  front ex_kv !! "x" = None
  ∧ GetFront ex_kv "x" = (("", false), ex_kv)
  ∧ back ex_kv !! "y" = None
  ∧ GetBack ex_kv "y" = (("", false), ex_kv).
Proof.
  split; [reflexivity|]. split.
  - apply (Get_absent_zero ex_kv). reflexivity.
  - split; [reflexivity|]. apply (Get_absent_zero ex_kv). reflexivity.
Defined.

Lemma DeleteFront_frame_witness :
  front ex_two !! "a" = Some "b"
  ∧ (GetFront (DeleteFront ex_two "a") "k").1 = (GetFront ex_two "k").1
  ∧ (GetBack (DeleteFront ex_two "a") "v").1 = (GetBack ex_two "v").1.
Proof.
  split; [reflexivity|].
  destruct (DeleteFront_frame ex_two "a" "b" eq_refl) as [Hf Hb].
  split; [apply Hf | apply Hb]; discriminate.
Defined.

Lemma String_format_witness :
  range_order (front ex_two) [("a", "b"); ("k", "v")]
  ∧ ∃ tokens : list string,
      tokens = ["a:b"; "k:v"]
      ∧ (String_in [("a", "b"); ("k", "v")] ex_two).1
        = "map[" +:+ String.concat " " tokens +:+ "]".
Proof.
  assert (range_order (front ex_two) [("a", "b"); ("k", "v")]) as Hord.
  { unfold range_order. vm_compute. apply perm_swap. }
  split; [exact Hord|].
  destruct (String_format ex_two _ Hord) as (tokens & Htok & _ & _ & Hs & _).
  exists tokens. split; [exact Htok | exact Hs].
Defined.

Lemma Front_snapshot_independent_witness :
  Store.allocated ex_ref ex_store
  ∧ range_order (Store.load_TU ex_store (Store.front ex_ref)) [("k", "v")]
  ∧ (Store.GetFront ex_ref "k"
       (foldl (Store.mutate (Store.Front_in [("k", "v")] ex_ref ex_store).1)
          (Store.Front_in [("k", "v")] ex_ref ex_store).2
          [Store.Delete "k"; Store.Assign "x" "y"])).1
    = (Store.GetFront ex_ref "k" ex_store).1
  ∧ Store.maps_TU
      (Store.run ex_ref [Store.OpDeleteFront "k"; Store.OpSetFront "p" "q"]
         (Store.Front_in [("k", "v")] ex_ref ex_store).2)
      !! (Store.Front_in [("k", "v")] ex_ref ex_store).1
    = Some (front (contents ex_ref ex_store)).
Proof.
  assert (Store.allocated ex_ref ex_store) as Halloc.
  { split; vm_compute; eexists; reflexivity. }
  assert (range_order (Store.load_TU ex_store (Store.front ex_ref)) [("k", "v")])
    as Hord.
  { unfold range_order. vm_compute. reflexivity. }
  split; [exact Halloc|]. split; [exact Hord|].
  destruct (Front_snapshot_independent ex_ref ex_store _ Halloc Hord)
    as (_ & _ & _ & Hmut & Hops).
  split; [apply Hmut | apply Hops].
Defined.

(** * Further properties of the methods *)

Section more_methods.
Context `{Countable T} `{Countable U} `{GoZero T} `{GoZero U}.
Implicit Types (m : BiMap T U) (k : T) (v : U).

Lemma SetBack_error m (k : U) (v : T) :
  (SetBack m k v).1 = Some ErrKeyValExists
  ↔ is_Some (back m !! k) ∨ is_Some (front m !! v).
Proof.
  unfold SetBack. rewrite <-!index_ok.
  destruct (index (back m) k).2, (index (front m) v).2; simpl; intuition congruence.
Qed.

Lemma SetFront_cases m k v :
  (front m !! k = None ∧ back m !! v = None
   ∧ SetFront m k v
     = (None, {| front := <[k := v]> (front m); back := <[v := k]> (back m) |}))
  ∨ ((is_Some (front m !! k) ∨ is_Some (back m !! v))
     ∧ SetFront m k v = (Some ErrKeyValExists, m)).
Proof.
  destruct (front m !! k) as [w|] eqn:Hk.
  { right. split; [by eauto|]. apply SetFront_rejected. rewrite Hk. by eauto. }
  destruct (back m !! v) as [w|] eqn:Hv.
  { right. split; [by eauto|]. apply SetFront_rejected. rewrite Hv. by eauto. }
  left. by rewrite (SetFront_fresh _ _ _ Hk Hv).
Qed.

(** X1. [SetBack(key, val)] returns the collision error exactly when [key]
    is a key of the back container or [val] is a key of the front
    container; a rejected call leaves the map as it was; a successful call
    adds [(key, val)] to the back container and [(val, key)] to the front
    container. *)
Theorem SetBack_collision_atomic m (key : U) (val : T) :
  ((SetBack m key val).1 = Some ErrKeyValExists
   ↔ is_Some (back m !! key) ∨ is_Some (front m !! val))
  ∧ ((SetBack m key val).1 = Some ErrKeyValExists → (SetBack m key val).2 = m)
  ∧ ((SetBack m key val).1 = None →
     back (SetBack m key val).2 = <[key := val]> (back m)
     ∧ front (SetBack m key val).2 = <[val := key]> (front m)).
Proof.
  split; [apply SetBack_error|]. split.
  - intros Herr. apply SetBack_rejected. by rewrite Herr.
  - intros Hnil. apply SetBack_nil in Hnil as [Hk Hv].
    by rewrite (SetBack_fresh _ _ _ Hk Hv).
Qed.

(** X2. The two write methods are one operation: [SetBack(b, f)] returns
    the same result and leaves the same map as [SetFront(f, b)], in every
    state. *)
Theorem SetBack_as_SetFront m (b : U) (f : T) :
  SetBack m b f = SetFront m f b.
Proof.
  unfold SetBack, SetFront.
  by destruct (index (back m) b).2, (index (front m) f).2.
Qed.

(** X3. [DeleteBack(key)] on a map whose back container holds [(key, f)]
    deletes [key] from the back container and [f] from the front container,
    after which [GetBack(key)] and [GetFront(f)] report absence; when [key]
    is not in the back container the map is returned as it was. *)
Theorem DeleteBack_both_sides m (key : U) :
  (∀ f, back m !! key = Some f →
     back (DeleteBack m key) = delete key (back m)
     ∧ front (DeleteBack m key) = delete f (front m)
     ∧ (GetBack (DeleteBack m key) key).1 = (go_zero, false)
     ∧ (GetFront (DeleteBack m key) f).1 = (go_zero, false))
  ∧ (back m !! key = None → DeleteBack m key = m).
Proof.
  split; [|apply DeleteBack_absent].
  intros f Hk. rewrite (DeleteBack_present _ _ _ Hk), GetFront_eq, GetBack_eq.
  simpl. repeat split; apply index_None, lookup_delete_eq.
Qed.

(** X4. Deleting a pair by its back key is deleting it by its front key:
    on a map that holds [(k, v)] in the front container and [(v, k)] in the
    back container, [DeleteBack(v)] and [DeleteFront(k)] leave the same
    map. *)
Theorem DeleteBack_as_DeleteFront m k v :
  front m !! k = Some v → back m !! v = Some k →
  DeleteBack m v = DeleteFront m k.
Proof.
  intros Hk Hv.
  by rewrite (DeleteFront_present _ _ _ Hk), (DeleteBack_present _ _ _ Hv).
Qed.

(** X5. A successful [SetFront(k, v)] is undone by [DeleteFront(k)]: the
    map is again exactly the map before the insertion. *)
Theorem SetFront_DeleteFront_roundtrip m k v :
  (SetFront m k v).1 = None →
  DeleteFront (SetFront m k v).2 k = m.
Proof.
  intros Hnil. apply SetFront_nil in Hnil as [Hk Hv].
  rewrite (SetFront_fresh _ _ _ Hk Hv).
  rewrite (DeleteFront_present _ k v) by apply lookup_insert_eq. simpl.
  rewrite !delete_insert_id by done. by destruct m.
Qed.

(** X6. On a map that holds [(k, v)] in the front container and [(v, k)]
    in the back container, deleting [k] and setting it again to [v]
    succeeds and gives back exactly the map before the deletion. *)
Theorem DeleteFront_SetFront_roundtrip m k v :
  front m !! k = Some v → back m !! v = Some k →
  SetFront (DeleteFront m k) k v = (None, m).
Proof.
  intros Hk Hv. rewrite (DeleteFront_present _ _ _ Hk).
  rewrite SetFront_fresh by apply lookup_delete_eq. simpl.
  rewrite !insert_delete_id by done. by destruct m.
Qed.

(** X7. A successful [SetFront(k, v)] changes no other lookup:
    [GetFront(k')] for [k' ≠ k] and [GetBack(b)] for [b ≠ v] return what
    they returned before. *)
Theorem SetFront_frame m k v :
  (SetFront m k v).1 = None →
  (∀ k', k' ≠ k → (GetFront (SetFront m k v).2 k').1 = (GetFront m k').1)
  ∧ (∀ b, b ≠ v → (GetBack (SetFront m k v).2 b).1 = (GetBack m b).1).
Proof.
  intros Hnil. apply SetFront_nil in Hnil as [Hk Hv].
  rewrite (SetFront_fresh _ _ _ Hk Hv).
  split; intros x Hx; rewrite ?GetFront_eq, ?GetBack_eq; simpl;
    unfold index; by rewrite lookup_insert_ne.
Qed.

(** X8. [Len()] after [SetFront]: one more than before when the call
    succeeds, the same as before when it is rejected. *)
Theorem Len_SetFront m k v :
  (Len (SetFront m k v).2).1
  = match (SetFront m k v).1 with
    | None => ((Len m).1 + 1)%Z
    | Some _ => (Len m).1
    end.
Proof.
  destruct (SetFront_cases m k v) as [(Hk & _ & ->)|[_ ->]]; simpl; [|done].
  rewrite map_size_insert_None by done. lia.
Qed.

(** X9. [Len()] after [DeleteFront(k)]: one less than before when [k] is
    in the front container, the same as before when it is not. *)
Theorem Len_DeleteFront m k :
  (Len (DeleteFront m k)).1
  = if (GetFront m k).1.2 then ((Len m).1 - 1)%Z else (Len m).1.
Proof.
  rewrite GetFront_eq. simpl. destruct (front m !! k) as [v|] eqn:Hk.
  - rewrite (DeleteFront_present _ _ _ Hk), (index_Some _ _ _ Hk). simpl.
    rewrite map_size_delete, Hk. simpl.
    assert (size (front m) ≠ 0); [|lia].
    apply map_size_non_empty_iff. intros Hempty.
    by rewrite Hempty, lookup_empty in Hk.
  - by rewrite (DeleteFront_absent _ _ Hk), (index_None _ _ Hk).
Qed.

(** X10. Two insertions of pairs that share neither key nor value do not
    interfere: each returns the result it would return alone on the first
    map, and the final map does not depend on which one runs first. *)
Theorem SetFront_commute m k1 v1 k2 v2 :
  k1 ≠ k2 → v1 ≠ v2 →
  (SetFront (SetFront m k1 v1).2 k2 v2).1 = (SetFront m k2 v2).1
  ∧ (SetFront (SetFront m k2 v2).2 k1 v1).1 = (SetFront m k1 v1).1
  ∧ (SetFront (SetFront m k1 v1).2 k2 v2).2
    = (SetFront (SetFront m k2 v2).2 k1 v1).2.
Proof.
  intros Hk Hv.
  destruct (SetFront_cases m k1 v1) as [(Hk1 & Hv1 & E1)|[Hex1 E1]];
    destruct (SetFront_cases m k2 v2) as [(Hk2 & Hv2 & E2)|[Hex2 E2]];
    rewrite ?E1, ?E2; simpl; rewrite ?E1, ?E2; simpl.
  - rewrite !SetFront_fresh by (simpl; by rewrite lookup_insert_ne).
    simpl. repeat split.
    by rewrite (insert_insert_ne _ k1 k2), (insert_insert_ne _ v1 v2).
  - rewrite (SetFront_rejected _ k2 v2)
      by (simpl; rewrite !lookup_insert_ne by done; done).
    done.
  - rewrite (SetFront_rejected _ k1 v1)
      by (simpl; rewrite !lookup_insert_ne by done; done).
    done.
  - done.
Qed.

(** X11. Deletions commute, and deleting a key twice is deleting it once,
    in every state. *)
Theorem DeleteFront_commute m k1 k2 :
  DeleteFront (DeleteFront m k1) k2 = DeleteFront (DeleteFront m k2) k1
  ∧ DeleteFront (DeleteFront m k1) k1 = DeleteFront m k1.
Proof.
  split.
  - destruct (decide (k1 = k2)) as [->|Hne]; [done|].
    destruct (front m !! k1) as [v1|] eqn:Hk1, (front m !! k2) as [v2|] eqn:Hk2.
    + rewrite (DeleteFront_present _ _ _ Hk1), (DeleteFront_present _ _ _ Hk2).
      rewrite (DeleteFront_present _ k2 v2), (DeleteFront_present _ k1 v1)
        by (simpl; by rewrite lookup_delete_ne).
      simpl. by rewrite (delete_delete _ k1 k2), (delete_delete _ v1 v2).
    + rewrite (DeleteFront_absent _ _ Hk2), (DeleteFront_present _ _ _ Hk1).
      by rewrite DeleteFront_absent by (simpl; by rewrite lookup_delete_ne).
    + rewrite (DeleteFront_absent _ _ Hk1), (DeleteFront_present _ _ _ Hk2).
      by rewrite DeleteFront_absent by (simpl; by rewrite lookup_delete_ne).
    + by rewrite (DeleteFront_absent _ _ Hk1), (DeleteFront_absent _ _ Hk2),
        (DeleteFront_absent _ _ Hk1).
  - destruct (front m !! k1) as [v1|] eqn:Hk1.
    + rewrite (DeleteFront_present _ _ _ Hk1).
      by rewrite DeleteFront_absent by apply lookup_delete_eq.
    + by rewrite !(DeleteFront_absent _ _ Hk1).
Qed.

(** X12. Uniqueness on both sides.  Run any sequence of calls on the empty
    map made by [New] and stop after any number of them: no two different
    front keys have the same value, and no two different back keys have the
    same value. *)
Theorem uniqueness `{GoFmt T} `{GoFmt U} (ops : list (op T U)) (n : nat) :
  let m := run (take n ops) (New []) in
  (∀ f1 f2 b, (GetFront m f1).1 = (b, true) → (GetFront m f2).1 = (b, true) →
     f1 = f2)
  ∧ (∀ b1 b2 f, (GetBack m b1).1 = (f, true) → (GetBack m b2).1 = (f, true) →
     b1 = b2).
Proof.
  intros m.
  assert (consistent m) as Hm by apply consistent_run, consistent_New.
  split.
  - intros f1 f2 b. rewrite !GetFront_eq. simpl. rewrite !index_true.
    intros Ha%Hm Hb%Hm. congruence.
  - intros b1 b2 f. rewrite !GetBack_eq. simpl. rewrite !index_true.
    intros Ha%Hm Hb%Hm. congruence.
Qed.

End more_methods.

(** ** Seeding with [initialOption.apply] *)

Section seeding.
Context `{Countable T} `{Countable U}.
Implicit Types (m : BiMap T U) (io : gmap T U) (order : list (T * U)).

Lemma apply_in_snoc order kv m :
  apply_in (order ++ [kv]) m = apply_step (apply_in order m) kv.
Proof. unfold apply_in. by rewrite foldl_snoc. Qed.

Lemma foldr_insert_union (l : list (T * U)) (acc : gmap T U) :
  foldr (λ kv, <[kv.1 := kv.2]>) acc l = list_to_map l ∪ acc.
Proof.
  induction l as [|kv l IH]; simpl.
  - by rewrite (left_id_L ∅ (∪)).
  - by rewrite IH, insert_union_l.
Qed.

Lemma apply_in_front_fold order m :
  front (apply_in order m) = foldl (λ nm kv, <[kv.1 := kv.2]> nm) (front m) order.
Proof.
  induction order as [|kv order IH] using rev_ind; [done|].
  by rewrite apply_in_snoc, foldl_snoc, <-IH.
Qed.

Lemma apply_in_back_other order m v :
  (∀ k, (k, v) ∉ order) → back (apply_in order m) !! v = back m !! v.
Proof.
  induction order as [|kv order IH] using rev_ind; intros Hv; [done|].
  rewrite apply_in_snoc. simpl. rewrite lookup_insert_ne.
  - apply IH. intros k Hin. apply (Hv k), elem_of_app. by left.
  - intros Heq. apply (Hv kv.1), elem_of_app. right.
    rewrite <-Heq. destruct kv. apply list_elem_of_here.
Qed.

Lemma apply_in_back_from order m v k :
  back (apply_in order m) !! v = Some k → (k, v) ∈ order ∨ back m !! v = Some k.
Proof.
  induction order as [|kv order IH] using rev_ind; [by right|].
  rewrite apply_in_snoc. simpl. destruct (decide (kv.2 = v)) as [<-|Hne].
  - rewrite lookup_insert_eq. intros [= <-]. left.
    apply elem_of_app. right. destruct kv. apply list_elem_of_here.
  - rewrite lookup_insert_ne by done. intros [Hin|Hm]%IH; [left|by right].
    apply elem_of_app. by left.
Qed.

Lemma apply_in_back_value order m v k :
  (k, v) ∈ order → ∃ k', (k', v) ∈ order ∧ back (apply_in order m) !! v = Some k'.
Proof.
  induction order as [|kv order IH] using rev_ind; intros Hin.
  { by apply elem_of_nil in Hin. }
  rewrite apply_in_snoc. simpl. destruct (decide (kv.2 = v)) as [<-|Hne].
  - exists kv.1. rewrite lookup_insert_eq. split; [|done].
    apply elem_of_app. right. destruct kv. apply list_elem_of_here.
  - apply elem_of_app in Hin as [Hin|Hin].
    + destruct (IH Hin) as (k' & Hin' & Hk'). exists k'.
      rewrite lookup_insert_ne by done. split; [|done].
      apply elem_of_app. by left.
    + apply list_elem_of_singleton in Hin. by subst kv.
Qed.

Lemma apply_in_front_empty io order :
  range_order io order → front (apply_in order (New [])) = io.
Proof.
  intros Hord. rewrite apply_in_front_fold. simpl. by apply copy_loop.
Qed.

(** X13. [initialOption.apply], when it is called, performs no collision
    check on the front side: whatever the visiting order, the front
    container afterwards holds every pair of the initial map, a pair of the
    initial map replacing an earlier entry with the same key, and keeps its
    other entries. *)
Theorem apply_front_union io order m :
  range_order io order →
  front (apply_in order m) = io ∪ front m.
Proof.
  intros Hord.
  rewrite apply_in_front_fold, foldl_insert_list_to_map, foldr_insert_union.
  f_equal. rewrite <-(list_to_map_to_list io). apply list_to_map_proper.
  - rewrite fmap_reverse, reverse_Permutation.
    by eapply range_order_NoDup_keys.
  - by rewrite reverse_Permutation.
Qed.

(** X14. [initialOption.apply] on the back side: whatever the visiting
    order, every value [v] of the initial map is afterwards a back key that
    maps to one of the keys the initial map gives the value [v] (the one
    visited last), and a back key that is no value of the initial map
    keeps its entry. *)
Theorem apply_back_values io order m :
  range_order io order →
  (∀ k v, io !! k = Some v →
     ∃ k', io !! k' = Some v ∧ back (apply_in order m) !! v = Some k')
  ∧ (∀ v, (∀ k, io !! k ≠ Some v) →
     back (apply_in order m) !! v = back m !! v).
Proof.
  intros Hord. split.
  - intros k v Hk. apply (range_order_elem _ _ _ _ Hord) in Hk.
    destruct (apply_in_back_value order m v k Hk) as (k' & Hin & Hb).
    exists k'. split; [|done]. by apply (range_order_elem _ _ _ _ Hord).
  - intros v Hv. apply apply_in_back_other. intros k Hin.
    by apply (range_order_elem _ _ _ _ Hord), Hv in Hin.
Qed.

(** X15. Seeding an empty map with [initialOption.apply] gives containers
    that are inverse of one another exactly when no two keys of the initial
    map share a value. *)
Theorem apply_consistent_iff_injective io order :
  range_order io order →
  consistent (apply_in order (New [])) ↔ injective io.
Proof.
  intros Hord.
  assert (front (apply_in order (New [])) = io) as Hfront.
  { rewrite (apply_in_front_empty io order) by done. done. }
  split.
  - intros Hc k1 k2 v Hk1 Hk2.
    rewrite <-Hfront in Hk1, Hk2. apply Hc in Hk1, Hk2. congruence.
  - intros Hinj f b. rewrite Hfront. split.
    + intros Hf. apply (range_order_elem _ _ _ _ Hord) in Hf as Hin.
      destruct (apply_in_back_value order (New []) b f Hin) as (k' & Hin' & Hb).
      apply (range_order_elem _ _ _ _ Hord) in Hin'.
      by rewrite (Hinj f k' b Hf Hin').
    + intros [Hin|Hb]%apply_in_back_from.
      * by apply (range_order_elem _ _ _ _ Hord).
      * simpl in Hb. by rewrite lookup_empty in Hb.
Qed.

End seeding.

(** ** Enumeration with [For] *)

Lemma foldl_Permutation {A B} (g : B → A → B) (l1 l2 : list A) :
  (∀ b x y, g (g b x) y = g (g b y) x) →
  l1 ≡ₚ l2 → ∀ b, foldl g b l1 = foldl g b l2.
Proof.
  intros Hg. induction 1 as [|x l1 l2 _ IH|x y l|l1 l2 l3 _ IH1 _ IH2];
    intros b; simpl.
  - done.
  - apply IH.
  - by rewrite Hg.
  - by rewrite IH1.
Qed.


Section enumeration.
Context `{Countable T} `{Countable U}.
Implicit Types (m : BiMap T U).


(** X17. The visiting order of [For] is unspecified, but it cannot be
    observed by a visitor whose calls commute: for such a visitor any two
    visiting orders of the front container give the same final state. *)
Theorem For_order_irrelevant {S : Type} m (fn : T → U → S → S)
    (order1 order2 : list (T * U)) (s : S) :
  (∀ f1 b1 f2 b2 s, fn f2 b2 (fn f1 b1 s) = fn f1 b1 (fn f2 b2 s)) →
  range_order (front m) order1 →
  range_order (front m) order2 →
  For_in order1 m fn s = For_in order2 m fn s.
Proof.
  intros Hfn Hord1 Hord2. unfold For_in. f_equal.
  apply foldl_Permutation.
  - intros b x y. apply Hfn.
  - unfold range_order in *. by rewrite Hord1, Hord2.
Qed.

End enumeration.

(** ** The tests *)

Lemma New_SetFront (k v : string) :
  (SetFront (New [] : BiMap string string) k v).2
  = {| front := {[k := v]}; back := {[v := k]} |}.
Proof. by rewrite SetFront_fresh by apply lookup_empty. Qed.

Lemma New_SetBack (k v : string) :
  (SetBack (New [] : BiMap string string) k v).2
  = {| front := {[v := k]}; back := {[k := v]} |}.
Proof. by rewrite SetBack_fresh by apply lookup_empty. Qed.

(** X18. The four tests of the package pass, and not only for the pair
    ["k"], ["v"] they fix: for any two strings no test reports an error. *)
Theorem tests_pass (k v : string) :
  TestGetSetFront_body k v = []
  ∧ TestGetSetBack_body k v = []
  ∧ TestDeleteFront_body k v = []
  ∧ TestDeleteBack_body k v = [].
Proof.
  repeat split.
  - unfold TestGetSetFront_body. rewrite New_SetFront, GetFront_eq.
    rewrite (index_Some _ k v) by apply lookup_singleton_eq. simpl.
    by rewrite bool_decide_false by (by intros []).
  - unfold TestGetSetBack_body. rewrite New_SetBack, GetBack_eq.
    rewrite (index_Some _ k v) by apply lookup_singleton_eq. simpl.
    by rewrite bool_decide_false by (by intros []).
  - unfold TestDeleteFront_body. rewrite New_SetFront.
    rewrite (DeleteFront_present _ k v) by apply lookup_singleton_eq.
    rewrite GetFront_eq. simpl.
    by rewrite index_None by apply lookup_delete_eq.
  - unfold TestDeleteBack_body. rewrite New_SetBack.
    rewrite (DeleteBack_present _ k v) by apply lookup_singleton_eq.
    rewrite GetFront_eq. simpl. rewrite delete_singleton_eq.
    by rewrite index_None by apply lookup_empty.
Qed.

(** X19. [TestDeleteBack] looks the deleted back key up in the front
    container.  For two different strings that lookup already reports
    absence before [DeleteBack] is called, so the test does not depend on
    what [DeleteBack] does. *)
Theorem TestDeleteBack_lookup_absent_before_delete (k v : string) :
  k ≠ v →
  (GetFront (SetBack (New [] : BiMap string string) k v).2 k).1 = ("", false).
Proof.
  intros Hne. rewrite New_SetBack, GetFront_eq. simpl.
  apply index_None. by rewrite lookup_singleton_ne.
Qed.

(** * Further properties of the store layer *)

Section store_back.
Context `{Countable T} `{Countable U} `{GoZero T} `{GoZero U}.
Implicit Types (s : Store.store T U) (m : Store.BiMap) (a nm : positive).

Lemma copy_into_UT_eq nm order s :
  Store.maps_UT (foldl (λ s kv, Store.assign_UT nm kv.1 kv.2 s) s order) !! nm
  = (λ bm, foldl (λ bm kv, <[kv.1 := kv.2]> bm) bm order)
      <$> Store.maps_UT s !! nm.
Proof.
  revert s. induction order as [|kv order IH]; intros s; simpl.
  - by destruct (Store.maps_UT s !! nm).
  - rewrite IH. simpl. rewrite lookup_alter_eq.
    by destruct (Store.maps_UT s !! nm).
Qed.

Lemma Back_in_new_address order m s :
  Store.maps_UT s !! (Store.Back_in order m s).1 = None.
Proof. apply make_UT_fresh. Qed.

Lemma Back_in_copy order m s :
  Store.maps_UT (Store.Back_in order m s).2 !! (Store.Back_in order m s).1
  = Some (foldl (λ bm kv, <[kv.1 := kv.2]> bm) ∅ order).
Proof.
  unfold Store.Back_in. simpl. rewrite copy_into_UT_eq. simpl.
  by rewrite lookup_insert_eq.
Qed.

Lemma sim_Back_in order m s :
  Store.allocated m s →
  Store.load_UT (Store.Back_in order m s).2 (Store.Back_in order m s).1
  = (Back_in order (contents m s)).1
  ∧ contents m (Store.Back_in order m s).2 = (Back_in order (contents m s)).2.
Proof.
  intros [Hf Hb]. split.
  - apply load_UT_Some, Back_in_copy.
  - unfold contents, Store.load_TU, Store.load_UT.
    rewrite Back_in_old_UT by done. by rewrite Back_in_TU.
Qed.

Lemma mutate_back_UT_ne nm (cs : list (Store.mutation U T)) s a :
  a ≠ nm →
  Store.maps_UT (foldl (mutate_back nm) s cs) !! a = Store.maps_UT s !! a.
Proof.
  intros Ha. revert s. induction cs as [|c cs IH]; intros s; simpl; [done|].
  rewrite IH. destruct c; simpl; by rewrite lookup_alter_ne.
Qed.

Lemma mutate_back_TU nm (cs : list (Store.mutation U T)) s :
  Store.maps_TU (foldl (mutate_back nm) s cs) = Store.maps_TU s.
Proof.
  revert s. induction cs as [|c cs IH]; intros s; simpl; [done|].
  rewrite IH. by destruct c.
Qed.

Lemma exec_allocated_UT m s (o : Store.op T U) a :
  is_Some (Store.maps_UT s !! a) →
  is_Some (Store.maps_UT (Store.exec m s o) !! a).
Proof.
  intros Ha. destruct o; cbn [Store.exec].
  - by rewrite sim_GetFront.
  - by rewrite sim_GetBack.
  - unfold Store.SetFront. destruct (if negb _ then _ else _); simpl; [done|].
    by apply lookup_alter_is_Some.
  - unfold Store.SetBack. destruct (if negb _ then _ else _); simpl; [done|].
    by apply lookup_alter_is_Some.
  - unfold Store.DeleteFront.
    destruct (index _ key) as [v []]; simpl; [|done].
    by apply lookup_alter_is_Some.
  - unfold Store.DeleteBack.
    destruct (index _ key) as [v []]; simpl; [|done].
    by apply lookup_alter_is_Some.
  - by rewrite Front_in_UT.
  - by rewrite Back_in_old_UT.
  - done.
Qed.

Lemma exec_other_UT m s (o : Store.op T U) a :
  a ≠ Store.back m →
  is_Some (Store.maps_UT s !! a) →
  Store.maps_UT (Store.exec m s o) !! a = Store.maps_UT s !! a.
Proof.
  intros Hne Ha. destruct o; cbn [Store.exec].
  - by rewrite sim_GetFront.
  - by rewrite sim_GetBack.
  - unfold Store.SetFront. destruct (if negb _ then _ else _); simpl; [done|].
    by rewrite lookup_alter_ne.
  - unfold Store.SetBack. destruct (if negb _ then _ else _); simpl; [done|].
    by rewrite lookup_alter_ne.
  - unfold Store.DeleteFront.
    destruct (index _ key) as [v []]; simpl; [|done].
    by rewrite lookup_alter_ne.
  - unfold Store.DeleteBack.
    destruct (index _ key) as [v []]; simpl; [|done].
    by rewrite lookup_alter_ne.
  - by rewrite Front_in_UT.
  - by rewrite Back_in_old_UT.
  - done.
Qed.

Lemma run_other_UT m (ops : list (Store.op T U)) s a :
  a ≠ Store.back m →
  is_Some (Store.maps_UT s !! a) →
  Store.maps_UT (Store.run m ops s) !! a = Store.maps_UT s !! a.
Proof.
  intros Hne. unfold Store.run. revert s.
  induction ops as [|o ops IH]; intros s Ha; simpl; [done|].
  rewrite IH by by apply exec_allocated_UT. by apply exec_other_UT.
Qed.

Lemma exec_allocated m s (o : Store.op T U) :
  Store.allocated m s → Store.allocated m (Store.exec m s o).
Proof.
  intros [Hf Hb]. split;
    [by apply exec_allocated_TU | by apply exec_allocated_UT].
Qed.

(** X20. [Back()] on a map whose two containers are allocated returns a
    reference that no object of the store had before the call; the object
    there holds exactly the pairs of the back container; the call changes
    nothing of the map.  Whatever the caller then assigns to or deletes
    from that object, the value of the map (so every [GetBack] and
    [GetFront]) stays what it was; and whatever calls are made on the map
    afterwards, the returned object keeps its pairs. *)
Theorem Back_snapshot_independent m s (order : list (U * T)) :
  Store.allocated m s →
  range_order (Store.load_UT s (Store.back m)) order →
  let nm := (Store.Back_in order m s).1 in
  let s1 := (Store.Back_in order m s).2 in
  (Store.maps_UT s !! nm = None ∧ nm ≠ Store.back m)
  ∧ Store.maps_UT s1 !! nm = Some (back (contents m s))
  ∧ contents m s1 = contents m s
  ∧ (∀ (cs : list (Store.mutation U T)) key,
       contents m (foldl (mutate_back nm) s1 cs) = contents m s
       ∧ (Store.GetBack m key (foldl (mutate_back nm) s1 cs)).1
         = (Store.GetBack m key s).1)
  ∧ (∀ (ops : list (Store.op T U)),
       Store.maps_UT (Store.run m ops s1) !! nm = Some (back (contents m s))).
Proof.
  intros Halloc Hord nm s1.
  pose proof (Back_in_new_address order m s) as Hnew. fold nm in Hnew.
  assert (nm ≠ Store.back m) as Hne.
  { intros Heq. destruct Halloc as [_ [bm Hbm]]. congruence. }
  assert (Store.maps_UT s1 !! nm = Some (back (contents m s))) as Hcopy.
  { unfold s1, nm. rewrite Back_in_copy. simpl. f_equal. by apply copy_loop. }
  assert (contents m s1 = contents m s) as Hlive.
  { unfold s1. destruct (sim_Back_in order m s Halloc) as [_ Hc].
    by rewrite Hc. }
  split; [done|]. split; [done|]. split; [done|]. split.
  - intros cs key.
    assert (contents m (foldl (mutate_back nm) s1 cs) = contents m s) as Hcs.
    { rewrite <-Hlive. unfold contents, Store.load_TU, Store.load_UT.
      by rewrite mutate_back_UT_ne, mutate_back_TU. }
    split; [done|]. by rewrite !sim_GetBack, Hcs.
  - intros ops. rewrite run_other_UT; [done..|]. by rewrite Hcopy.
Qed.

End store_back.

(** ** Programs that hold snapshots *)

Section encapsulation.
Context `{Countable T} `{Countable U} `{GoZero T} `{GoZero U}.
Context `{GoFmt T} `{GoFmt U}.
Implicit Types (s : Store.store T U) (m : Store.BiMap) (cl : client T U).

(** Every call on the map in the store is the call of the value layer. *)
Lemma sim_exec m s (o : Store.op T U) :
  Store.allocated m s →
  contents m (Store.exec m s o) = exec (contents m s) (erase o).
Proof.
  intros Halloc. destruct o; cbn [Store.exec erase exec].
  - by rewrite sim_GetFront, GetFront_eq.
  - by rewrite sim_GetBack, GetBack_eq.
  - by apply sim_SetFront.
  - by apply sim_SetBack.
  - apply sim_DeleteFront.
  - apply sim_DeleteBack.
  - by apply sim_Front_in.
  - by apply sim_Back_in.
  - done.
Qed.

Lemma sim_run m (ops : list (Store.op T U)) s :
  Store.allocated m s →
  contents m (Store.run m ops s) = run (erase <$> ops) (contents m s).
Proof.
  unfold Store.run, run. revert s.
  induction ops as [|o ops IH]; intros s Halloc; simpl; [done|].
  rewrite IH by by apply exec_allocated. by rewrite sim_exec.
Qed.

Lemma client_step_inv m cl (e : event T U) :
  client_inv m cl →
  client_inv m (client_step m cl e)
  ∧ contents m (heap (client_step m cl e))
    = match e with
      | Call o => exec (contents m (heap cl)) (erase o)
      | _ => contents m (heap cl)
      end.
Proof.
  intros (Halloc & Hfc & Hbc). destruct e as [o|i c|i c]; cbn [client_step].
  - split; [|by apply sim_exec]. split; [by apply exec_allocated|]. simpl.
    split.
    + destruct o; try done. apply Forall_app. split; [done|].
      apply Forall_singleton. intros Heq.
      pose proof (make_TU_fresh (heap cl)) as Hnew. simpl in Hnew, Heq.
      rewrite Heq in Hnew. destruct Halloc as [[fm Hfm] _]. congruence.
    + destruct o; try done. apply Forall_app. split; [done|].
      apply Forall_singleton. intros Heq.
      pose proof (make_UT_fresh (heap cl)) as Hnew. simpl in Hnew, Heq.
      rewrite Heq in Hnew. destruct Halloc as [_ [bm Hbm]]. congruence.
  - destruct (front_copies cl !! i) as [a|] eqn:Hi; [|done].
    assert (a ≠ Store.front m) as Hne.
    { by apply (Forall_lookup_1 _ _ _ _ Hfc Hi). }
    simpl. split.
    + split; [|done]. destruct Halloc as [Hf Hb].
      split; destruct c; simpl; try done; by apply lookup_alter_is_Some.
    + unfold contents, Store.load_TU, Store.load_UT.
      destruct c; simpl; by rewrite lookup_alter_ne.
  - destruct (back_copies cl !! i) as [a|] eqn:Hi; [|done].
    assert (a ≠ Store.back m) as Hne.
    { by apply (Forall_lookup_1 _ _ _ _ Hbc Hi). }
    simpl. split.
    + split; [|done]. destruct Halloc as [Hf Hb].
      split; destruct c; simpl; try done; by apply lookup_alter_is_Some.
    + unfold contents, Store.load_TU, Store.load_UT.
      destruct c; simpl; by rewrite lookup_alter_ne.
Qed.

Lemma client_steps_contents m (es : list (event T U)) cl :
  client_inv m cl →
  contents m (heap (foldl (client_step m) cl es))
  = run (calls es) (contents m (heap cl)).
Proof.
  revert cl. induction es as [|e es IH]; intros cl Hinv; [done|].
  destruct (client_step_inv m cl e Hinv) as [Hinv' Hc].
  simpl. rewrite (IH _ Hinv'), Hc. by destruct e.
Qed.

Lemma client_inv_start m s :
  Store.allocated m s →
  client_inv m {| heap := s; front_copies := []; back_copies := [] |}.
Proof. intros Halloc. split; [done|]. split; apply Forall_nil_2. Qed.

(** X21. The containers of the map cannot be reached from outside.  Let a
    program call the methods of a map and write, in any way and at any
    time, to the maps that [Front] and [Back] returned to it: the value of
    the map is at every moment the one that the method calls alone produce;
    the writes to the snapshots have no effect on it. *)
Theorem client_encapsulation m s (es : list (event T U)) :
  Store.allocated m s →
  contents m (heap (client_run m es s)) = run (calls es) (contents m s).
Proof.
  intros Halloc. unfold client_run.
  by rewrite client_steps_contents by by apply client_inv_start.
Qed.

(** X22. For a map made by [New] in any store, and any program as in X21:
    at every moment [GetFront(f)] returns [(b, true)] exactly when
    [GetBack(b)] returns [(f, true)], and [Len()] is the number of entries
    of the back container as well. *)
Theorem client_inverse_consistency (options : list Store.option_) s
    (es : list (event T U)) :
  let m := (Store.New options s).1 in
  let h := heap (client_run m es (Store.New options s).2) in
  (∀ f b, (Store.GetFront m f h).1 = (b, true)
          ↔ (Store.GetBack m b h).1 = (f, true))
  ∧ (Store.Len m h).1 = Z.of_nat (size (Store.load_UT h (Store.back m))).
Proof.
  intros m h. destruct (sim_New options s) as [Halloc Hnew].
  assert (consistent (contents m h)) as Hc.
  { unfold h, client_run.
    rewrite client_steps_contents by by apply client_inv_start.
    apply consistent_run. cbn [heap]. unfold m. rewrite Hnew.
    apply consistent_New. }
  split.
  - intros f b. rewrite sim_GetFront, sim_GetBack, GetFront_eq, GetBack_eq.
    simpl. rewrite !index_true. apply Hc.
  - rewrite sim_Len. simpl. f_equal. apply (consistent_size _ Hc).
Qed.

(** X23. Two maps never share storage.  A map made by [New] in a store
    that already holds a map [m1] is empty, leaves [m1] as it is, and
    afterwards no sequence of calls on one of the two maps changes the
    other. *)
Theorem New_isolated (options : list Store.option_) m1 s :
  Store.allocated m1 s →
  let m2 := (Store.New options s).1 in
  let s2 := (Store.New options s).2 in
  contents m2 s2 = New []
  ∧ contents m1 s2 = contents m1 s
  ∧ (∀ ops : list (Store.op T U),
       contents m1 (Store.run m2 ops s2) = contents m1 s)
  ∧ (∀ ops : list (Store.op T U),
       contents m2 (Store.run m1 ops s2) = New []).
Proof.
  intros [Hf1 Hb1] m2 s2. destruct (sim_New options s) as [[Hf2 Hb2] Hnew].
  fold m2 s2 in Hf2, Hb2, Hnew.
  assert (Store.front m1 ≠ Store.front m2) as Hfne.
  { intros Heq. pose proof (make_TU_fresh s) as Hfresh.
    destruct Hf1 as [fm Hfm]. unfold m2 in Heq. simpl in Heq.
    simpl in Hfresh. rewrite <-Heq in Hfresh. congruence. }
  assert (Store.back m1 ≠ Store.back m2) as Hbne.
  { intros Heq. pose proof (make_UT_fresh s) as Hfresh.
    destruct Hb1 as [bm Hbm]. unfold m2 in Heq. simpl in Heq.
    simpl in Hfresh. rewrite <-Heq in Hfresh. congruence. }
  assert (Store.maps_TU s2 !! Store.front m1 = Store.maps_TU s !! Store.front m1)
    as Hf12.
  { unfold s2. simpl. by rewrite lookup_insert_ne. }
  assert (Store.maps_UT s2 !! Store.back m1 = Store.maps_UT s !! Store.back m1)
    as Hb12.
  { unfold s2. simpl. by rewrite lookup_insert_ne. }
  split; [done|]. split; [|split].
  - unfold contents, Store.load_TU, Store.load_UT. by rewrite Hf12, Hb12.
  - intros ops. unfold contents, Store.load_TU, Store.load_UT.
    rewrite run_other_TU, run_other_UT, Hf12, Hb12;
      [done|done|by rewrite Hb12|done|by rewrite Hf12].
  - intros ops. rewrite <-Hnew. unfold contents, Store.load_TU, Store.load_UT.
    by rewrite run_other_TU, run_other_UT.
Qed.

End encapsulation.

(** ** Worked examples for the further properties *)

(** An initial map with one value under two keys: after [apply] the back
    container knows one of the keys only, so the other pair cannot be found
    from its value. *)
Example test_apply_duplicate_values :
  let m : BiMap string string :=
    apply (WithInitialMap {["a" := "x"; "b" := "x"]}) ex_empty in
  (GetFront m "a").1 = ("x", true)
  ∧ (GetFront m "b").1 = ("x", true)
  ∧ (Len m).1 = 2%Z
  ∧ size (back m) = 1.
Proof. repeat split; reflexivity. Qed.

Lemma DeleteBack_as_DeleteFront_witness :
  front ex_two !! "a" = Some "b" ∧ back ex_two !! "b" = Some "a"
  ∧ DeleteBack ex_two "b" = DeleteFront ex_two "a".
Proof.
  split; [reflexivity|]. split; [reflexivity|].
  apply (DeleteBack_as_DeleteFront ex_two "a" "b"); reflexivity.
Defined.

Lemma SetFront_DeleteFront_roundtrip_witness :
  (SetFront ex_kv "a" "b").1 = None
  ∧ DeleteFront (SetFront ex_kv "a" "b").2 "a" = ex_kv.
Proof.
  split; [reflexivity|].
  apply (SetFront_DeleteFront_roundtrip ex_kv "a" "b"). reflexivity.
Defined.

Lemma DeleteFront_SetFront_roundtrip_witness :
  front ex_two !! "a" = Some "b" ∧ back ex_two !! "b" = Some "a"
  ∧ SetFront (DeleteFront ex_two "a") "a" "b" = (None, ex_two).
Proof.
  split; [reflexivity|]. split; [reflexivity|].
  apply (DeleteFront_SetFront_roundtrip ex_two "a" "b"); reflexivity.
Defined.

Lemma SetFront_frame_witness :
  (SetFront ex_kv "a" "b").1 = None
  ∧ (GetFront (SetFront ex_kv "a" "b").2 "k").1 = (GetFront ex_kv "k").1
  ∧ (GetBack (SetFront ex_kv "a" "b").2 "v").1 = (GetBack ex_kv "v").1.
Proof.
  split; [reflexivity|].
  destruct (SetFront_frame ex_kv "a" "b" eq_refl) as [Hf Hb].
  split; [apply Hf | apply Hb]; discriminate.
Defined.

Lemma SetFront_commute_witness :
  "a" ≠ "c" ∧ "b" ≠ "d"
  ∧ (SetFront (SetFront ex_kv "a" "b").2 "c" "d").2
    = (SetFront (SetFront ex_kv "c" "d").2 "a" "b").2.
Proof.
  split; [discriminate|]. split; [discriminate|].
  apply (SetFront_commute ex_kv "a" "b" "c" "d"); discriminate.
Defined.

Lemma apply_front_union_witness :
  range_order (front ex_two) [("a", "b"); ("k", "v")]
  ∧ front (apply_in [("a", "b"); ("k", "v")] ex_kv) = front ex_two ∪ front ex_kv.
Proof.
  assert (range_order (front ex_two) [("a", "b"); ("k", "v")]) as Hord.
  { unfold range_order. vm_compute. apply perm_swap. }
  split; [exact Hord|]. exact (apply_front_union _ _ ex_kv Hord).
Defined.

Lemma apply_back_values_witness :
  range_order (front ex_two) [("a", "b"); ("k", "v")]
  ∧ front ex_two !! "a" = Some "b"
  ∧ ∃ k', front ex_two !! k' = Some "b"
      ∧ back (apply_in [("a", "b"); ("k", "v")] ex_empty) !! "b" = Some k'.
Proof.
  assert (range_order (front ex_two) [("a", "b"); ("k", "v")]) as Hord.
  { unfold range_order. vm_compute. apply perm_swap. }
  split; [exact Hord|]. split; [reflexivity|].
  destruct (apply_back_values _ _ ex_empty Hord) as [Hval _].
  apply (Hval "a" "b"). reflexivity.
Defined.

Lemma apply_consistent_iff_injective_witness :
  range_order (front ex_two) [("a", "b"); ("k", "v")]
  ∧ (consistent (apply_in [("a", "b"); ("k", "v")] (New []))
     ↔ injective (front ex_two)).
Proof.
  assert (range_order (front ex_two) [("a", "b"); ("k", "v")]) as Hord.
  { unfold range_order. vm_compute. apply perm_swap. }
  split; [exact Hord|]. exact (apply_consistent_iff_injective _ _ Hord).
Defined.


Lemma For_order_irrelevant_witness :
  range_order (front ex_two) [("a", "b"); ("k", "v")]
  ∧ range_order (front ex_two) [("k", "v"); ("a", "b")]
  ∧ For_in [("a", "b"); ("k", "v")] ex_two
      (λ f b (total : Z), (total + Z.of_nat (String.length b))%Z) 0%Z
    = For_in [("k", "v"); ("a", "b")] ex_two
        (λ f b (total : Z), (total + Z.of_nat (String.length b))%Z) 0%Z.
Proof.
  assert (range_order (front ex_two) [("a", "b"); ("k", "v")]) as Hord1.
  { unfold range_order. vm_compute. apply perm_swap. }
  assert (range_order (front ex_two) [("k", "v"); ("a", "b")]) as Hord2.
  { unfold range_order. vm_compute. reflexivity. }
  split; [exact Hord1|]. split; [exact Hord2|].
  apply (For_order_irrelevant ex_two); [|exact Hord1|exact Hord2].
  intros f1 b1 f2 b2 total. lia.
Defined.

Lemma TestDeleteBack_lookup_absent_before_delete_witness :
  "k" ≠ "v"
  ∧ (GetFront (SetBack (New [] : BiMap string string) "k" "v").2 "k").1
    = ("", false).
Proof.
  split; [discriminate|].
  apply (TestDeleteBack_lookup_absent_before_delete "k" "v"). discriminate.
Defined.

Lemma Back_snapshot_independent_witness :
  Store.allocated ex_ref ex_store
  ∧ range_order (Store.load_UT ex_store (Store.back ex_ref)) [("v", "k")]
  ∧ (Store.GetBack ex_ref "v"
       (foldl (mutate_back (Store.Back_in [("v", "k")] ex_ref ex_store).1)
          (Store.Back_in [("v", "k")] ex_ref ex_store).2
          [Store.Delete "v"; Store.Assign "x" "y"])).1
    = (Store.GetBack ex_ref "v" ex_store).1
  ∧ Store.maps_UT
      (Store.run ex_ref [Store.OpDeleteBack "v"; Store.OpSetFront "p" "q"]
         (Store.Back_in [("v", "k")] ex_ref ex_store).2)
      !! (Store.Back_in [("v", "k")] ex_ref ex_store).1
    = Some (back (contents ex_ref ex_store)).
Proof.
  assert (Store.allocated ex_ref ex_store) as Halloc.
  { split; vm_compute; eexists; reflexivity. }
  assert (range_order (Store.load_UT ex_store (Store.back ex_ref)) [("v", "k")])
    as Hord.
  { unfold range_order. vm_compute. reflexivity. }
  split; [exact Halloc|]. split; [exact Hord|].
  destruct (Back_snapshot_independent ex_ref ex_store _ Halloc Hord)
    as (_ & _ & _ & Hmut & Hops).
  split; [apply Hmut | apply Hops].
Defined.

Lemma client_encapsulation_witness :
  Store.allocated ex_ref ex_store
  ∧ contents ex_ref
      (heap (client_run ex_ref
               [Call (Store.OpFront [("k", "v")]);
                MutateFrontCopy 0 (Store.Delete "k");
                Call (Store.OpSetFront "a" "b");
                MutateFrontCopy 0 (Store.Assign "a" "z")] ex_store))
    = run [OpFront [("k", "v")]; OpSetFront "a" "b"] (contents ex_ref ex_store).
Proof.
  assert (Store.allocated ex_ref ex_store) as Halloc.
  { split; vm_compute; eexists; reflexivity. }
  split; [exact Halloc|].
  exact (client_encapsulation ex_ref ex_store _ Halloc).
Defined.

Lemma New_isolated_witness :
  Store.allocated ex_ref ex_store
  ∧ contents ex_ref
      (Store.run (Store.New [] ex_store).1
         [Store.OpSetFront "k" "z"; Store.OpDeleteFront "k"]
         (Store.New [] ex_store).2)
    = contents ex_ref ex_store.
Proof.
  assert (Store.allocated ex_ref ex_store) as Halloc.
  { split; vm_compute; eexists; reflexivity. }
  split; [exact Halloc|].
  destruct (New_isolated [] ex_ref ex_store Halloc) as (_ & _ & Hops & _).
  apply Hops.
Defined.
